(** * Verification of the automated signing loop of [src/auto.ts]

    The development embeds the TypeScript module [src/auto.ts] (state store,
    reconciliation routine [checkAndSign], retry wrapper [runWithRetry]) and
    proves the properties its specification states.

    Conventions of the embedding:
    - a JavaScript string is the list of its UTF-16 code units ([jsstring]);
    - epoch numbers are mathematical integers ([Z]); JavaScript numbers agree
      with them on the safe-integer range, which epoch counters never leave;
    - every external collaborator (contract reads, submissions, the rewards
      data source, the health of the disk) is a function of an abstract
      external state chosen by the environment ([Collaborators]);
    - the checkpoint file, the console and the calls made are part of an
      explicit [World], threaded through a state-and-exception monad. *)

From Stdlib Require Import ZArith NArith List Bool Lia Ascii String Sorted.
From Stdlib Require DecimalFacts DecimalPos DecimalN DecimalZ.
Import ListNotations.

Local Open Scope N_scope.

(** ** JavaScript strings *)

Definition jsstring : Type := list N.

(** Code units of an ASCII literal. *)
Definition js (s : string) : jsstring :=
  List.map N_of_ascii (list_ascii_of_string s).

Definition QUOTE : N := 34.
Definition NEWLINE : N := 10.

Definition jsstring_eqb (a b : jsstring) : bool :=
  if list_eq_dec N.eq_dec a b then true else false.

Fixpoint startsWith (needle hay : jsstring) : bool :=
  match needle, hay with
  | [], _ => true
  | _ :: _, [] => false
  | x :: needle', y :: hay' => (x =? y) && startsWith needle' hay'
  end.

(** [String.prototype.includes]: [needle] occurs somewhere in [hay]. *)
Fixpoint includes (needle hay : jsstring) : bool :=
  startsWith needle hay ||
  match hay with
  | [] => false
  | _ :: hay' => includes needle hay'
  end.

(** ** JSON text: [JSON.parse] and [JSON.stringify] *)

Module Json.

(** A parsed JSON value.  A number keeps the characters of its literal: the
    value [JSON.parse] builds is the double nearest to it. *)
#[warnings="-register-all"]
Inductive value : Type :=
| JNull
| JBool (b : bool)
| JNum (literal : jsstring)
| JStr (s : jsstring)
| JArr (items : list value)
| JObj (members : list (jsstring * value)).

Definition is_ws (c : N) : bool :=
  (c =? 32) || (c =? 9) || (c =? 10) || (c =? 13).

Definition is_digit (c : N) : bool := (48 <=? c) && (c <=? 57).

Definition is_exp_mark (c : N) : bool := (c =? 101) || (c =? 69).

Definition hex_val (c : N) : option N :=
  if is_digit c then Some (c - 48)
  else if (97 <=? c) && (c <=? 102) then Some (c - 87)
  else if (65 <=? c) && (c <=? 70) then Some (c - 55)
  else None.

(** Where the reader stands inside a number literal: an optional minus
    sign, an integer part without leading zero, an optional fraction and an
    optional exponent. *)
Inductive num_state : Type :=
| NMinus | NZero | NInt | NDot | NFrac | NExpMark | NExpSign | NExp.

Definition num_accepting (st : num_state) : bool :=
  match st with
  | NZero | NInt | NFrac | NExp => true
  | NMinus | NDot | NExpMark | NExpSign => false
  end.

Definition num_step (st : num_state) (c : N) : option num_state :=
  match st with
  | NMinus =>
      if c =? 48 then Some NZero else if is_digit c then Some NInt else None
  | NZero =>
      if c =? 46 then Some NDot
      else if is_exp_mark c then Some NExpMark else None
  | NInt =>
      if is_digit c then Some NInt
      else if c =? 46 then Some NDot
      else if is_exp_mark c then Some NExpMark else None
  | NDot => if is_digit c then Some NFrac else None
  | NFrac =>
      if is_digit c then Some NFrac
      else if is_exp_mark c then Some NExpMark else None
  | NExpMark =>
      if (c =? 43) || (c =? 45) then Some NExpSign
      else if is_digit c then Some NExp else None
  | NExpSign => if is_digit c then Some NExp else None
  | NExp => if is_digit c then Some NExp else None
  end.

(** Enclosing containers of the value being read, innermost first. *)
Inductive frame : Type :=
| FArr (done : list value)
| FObj (done : list (jsstring * value))
| FObjVal (done : list (jsstring * value)) (key : jsstring).

Inductive mode : Type :=
| MValue
| MArrOpen
| MObjOpen
| MKey
| MColon (key : jsstring)
| MAfter (v : value)
| MString (iskey : bool) (acc : jsstring)
| MEscape (iskey : bool) (acc : jsstring)
| MUnicode (iskey : bool) (acc : jsstring) (todo : nat) (code : N)
| MNumber (st : num_state) (acc : jsstring)
| MLiteral (rest : jsstring) (v : value).

Definition pstate : Type := (list frame * mode)%type.

Definition start_value (stk : list frame) (c : N) : option pstate :=
  if c =? 123 then Some (FObj [] :: stk, MObjOpen)
  else if c =? 91 then Some (FArr [] :: stk, MArrOpen)
  else if c =? QUOTE then Some (stk, MString false [])
  else if c =? 45 then Some (stk, MNumber NMinus [c])
  else if c =? 48 then Some (stk, MNumber NZero [c])
  else if is_digit c then Some (stk, MNumber NInt [c])
  else if c =? 116 then Some (stk, MLiteral (js "rue") (JBool true))
  else if c =? 102 then Some (stk, MLiteral (js "alse") (JBool false))
  else if c =? 110 then Some (stk, MLiteral (js "ull") JNull)
  else None.

Definition after_value (stk : list frame) (v : value) (c : N)
  : option pstate :=
  if is_ws c then Some (stk, MAfter v)
  else
    match stk with
    | FArr done :: stk' =>
        if c =? 44 then Some (FArr (v :: done) :: stk', MValue)
        else if c =? 93 then Some (stk', MAfter (JArr (rev (v :: done))))
        else None
    | FObjVal done key :: stk' =>
        if c =? 44 then Some (FObj ((key, v) :: done) :: stk', MKey)
        else if c =? 125
             then Some (stk', MAfter (JObj (rev ((key, v) :: done))))
        else None
    | _ => None
    end.

Definition end_string (stk : list frame) (iskey : bool) (s : jsstring)
  : pstate :=
  if iskey then (stk, MColon s) else (stk, MAfter (JStr s)).

Definition escape_char (c : N) : option N :=
  if c =? QUOTE then Some QUOTE
  else if c =? 92 then Some 92
  else if c =? 47 then Some 47
  else if c =? 98 then Some 8
  else if c =? 102 then Some 12
  else if c =? 110 then Some 10
  else if c =? 114 then Some 13
  else if c =? 116 then Some 9
  else None.

(** One character of input. [None]: the text is not JSON. *)
Definition step (st : pstate) (c : N) : option pstate :=
  let (stk, m) := st in
  match m with
  | MValue => if is_ws c then Some (stk, MValue) else start_value stk c
  | MArrOpen =>
      if is_ws c then Some (stk, MArrOpen)
      else if c =? 93 then
        match stk with
        | FArr done :: stk' => Some (stk', MAfter (JArr (rev done)))
        | _ => None
        end
      else start_value stk c
  | MObjOpen =>
      if is_ws c then Some (stk, MObjOpen)
      else if c =? QUOTE then Some (stk, MString true [])
      else if c =? 125 then
        match stk with
        | FObj done :: stk' => Some (stk', MAfter (JObj (rev done)))
        | _ => None
        end
      else None
  | MKey =>
      if is_ws c then Some (stk, MKey)
      else if c =? QUOTE then Some (stk, MString true [])
      else None
  | MColon key =>
      if is_ws c then Some (stk, MColon key)
      else if c =? 58 then
        match stk with
        | FObj done :: stk' => Some (FObjVal done key :: stk', MValue)
        | _ => None
        end
      else None
  | MAfter v => after_value stk v c
  | MString iskey acc =>
      if c =? QUOTE then Some (end_string stk iskey (rev acc))
      else if c =? 92 then Some (stk, MEscape iskey acc)
      else if c <? 32 then None
      else Some (stk, MString iskey (c :: acc))
  | MEscape iskey acc =>
      if c =? 117 then Some (stk, MUnicode iskey acc 4 0)
      else
        match escape_char c with
        | Some d => Some (stk, MString iskey (d :: acc))
        | None => None
        end
  | MUnicode iskey acc todo code =>
      match hex_val c, todo with
      | Some h, S O => Some (stk, MString iskey ((code * 16 + h) :: acc))
      | Some h, S todo' => Some (stk, MUnicode iskey acc todo' (code * 16 + h))
      | _, _ => None
      end
  | MNumber ns acc =>
      match num_step ns c with
      | Some ns' => Some (stk, MNumber ns' (c :: acc))
      | None =>
          if num_accepting ns then after_value stk (JNum (rev acc)) c
          else None
      end
  | MLiteral rest v =>
      match rest with
      | x :: rest' => if c =? x then Some (stk, MLiteral rest' v) else None
      | [] => after_value stk v c
      end
  end.

Fixpoint run (st : pstate) (text : jsstring) : option pstate :=
  match text with
  | [] => Some st
  | c :: text' =>
      match step st c with
      | Some st' => run st' text'
      | None => None
      end
  end.

(** End of input: exactly one complete value must have been read. *)
Definition finish (st : pstate) : option value :=
  match st with
  | ([], MAfter v) => Some v
  | ([], MLiteral [] v) => Some v
  | ([], MNumber ns acc) =>
      if num_accepting ns then Some (JNum (rev acc)) else None
  | _ => None
  end.

(** [JSON.parse text]: [None] stands for the [SyntaxError] it throws. *)
Definition parse (text : jsstring) : option value :=
  match run ([], MValue) text with
  | Some st => finish st
  | None => None
  end.

(** Property read [obj.key] on a parsed object: the last member of that name
    is the one [JSON.parse] keeps. *)
Fixpoint get_member (key : jsstring) (members : list (jsstring * value))
  : option value :=
  match members with
  | [] => None
  | (k, v) :: rest =>
      match get_member key rest with
      | Some v' => Some v'
      | None => if jsstring_eqb k key then Some v else None
      end
  end.

(** *** Integers as decimal text *)

Definition digit_char (d : N) : N := 48 + d.

Fixpoint uint_chars (u : Decimal.uint) : jsstring :=
  match u with
  | Decimal.Nil => []
  | Decimal.D0 u' => digit_char 0 :: uint_chars u'
  | Decimal.D1 u' => digit_char 1 :: uint_chars u'
  | Decimal.D2 u' => digit_char 2 :: uint_chars u'
  | Decimal.D3 u' => digit_char 3 :: uint_chars u'
  | Decimal.D4 u' => digit_char 4 :: uint_chars u'
  | Decimal.D5 u' => digit_char 5 :: uint_chars u'
  | Decimal.D6 u' => digit_char 6 :: uint_chars u'
  | Decimal.D7 u' => digit_char 7 :: uint_chars u'
  | Decimal.D8 u' => digit_char 8 :: uint_chars u'
  | Decimal.D9 u' => digit_char 9 :: uint_chars u'
  end.

(** [String(n)] for an integer [n]. *)
Definition number_text (n : Z) : jsstring :=
  match Z.to_int n with
  | Decimal.Pos u => uint_chars u
  | Decimal.Neg u => 45 :: uint_chars u
  end.

Fixpoint chars_uint (s : jsstring) : option Decimal.uint :=
  match s with
  | [] => Some Decimal.Nil
  | c :: s' =>
      match chars_uint s' with
      | None => None
      | Some u =>
          if c =? 48 then Some (Decimal.D0 u)
          else if c =? 49 then Some (Decimal.D1 u)
          else if c =? 50 then Some (Decimal.D2 u)
          else if c =? 51 then Some (Decimal.D3 u)
          else if c =? 52 then Some (Decimal.D4 u)
          else if c =? 53 then Some (Decimal.D5 u)
          else if c =? 54 then Some (Decimal.D6 u)
          else if c =? 55 then Some (Decimal.D7 u)
          else if c =? 56 then Some (Decimal.D8 u)
          else if c =? 57 then Some (Decimal.D9 u)
          else None
      end
  end.

(** The integer a number literal denotes, when it is written as a plain
    integer (no fraction, no exponent). *)
Definition integer_of_literal (lit : jsstring) : option Z :=
  match lit with
  | [] => None
  | c :: ds =>
      if c =? 45 then
        match ds, chars_uint ds with
        | _ :: _, Some u => Some (Z.of_int (Decimal.Neg u))
        | _, _ => None
        end
      else
        match chars_uint lit with
        | Some u => Some (Z.of_int (Decimal.Pos u))
        | None => None
        end
  end.

End Json.

Local Open Scope Z_scope.

(** ** Data model of [src/auto.ts] *)

Definition MAX_RETRIES : Z := 3.
Definition RETRY_DELAY : Z := 30 * 1000.

(** [interface SigningState { lastCompletedEpoch: number }] *)
Record SigningState : Type := { lastCompletedEpoch : Z }.

(** A thrown error object with its optional [reason] and [message] fields. *)
Record JsError : Type := {
  reason : option jsstring;
  message : option jsstring
}.

(** Calls that leave the module. *)
Inductive Call : Type :=
| CInitializeFlareSystemsManager
| CGetCurrentRewardEpochId
| CUptimeVoteHash (epochId : Z)
| CGetUptimeVoteHash
| CSignUptimeVote (epochId : Z) (voteHash : jsstring)
| CRewardsHash (epochId : Z)
| CGetRewardsData (epochId : Z)
| CSignRewards (epochId : Z) (hash : jsstring) (noOfWeightBasedClaims : Z)
| CReadFileSync
| CWriteFileSync (data : jsstring)
| CSetTimeout (ms : Z)
| CSetInterval (ms : Z)
| CCheckAndSign.

(** Lines written to the console (the timestamp prefix is left out). *)
Inductive LogLine : Type :=
| LErrorLoadingState (error : JsError)
| LErrorSavingState (error : JsError)
| LCheckingEpochs (startEpoch currentRewardEpochId : Z)
| LLastCompletedEpoch (epochId : Z)
| LCheckingEpoch (epochId : Z)
| LUptimeAlreadySigned (epochId : Z)
| LUptimeNotSigned (epochId : Z)
| LAttemptingUptime
| LUptimeSigned (epochId : Z)
| LEpochNotEnded (epochId : Z)
| LUptimeFailed (epochId : Z) (error : JsError)
| LSkippingNotEnded (epochId : Z)
| LRewardsAlreadySigned (epochId : Z)
| LRewardsNotSigned (epochId : Z)
| LAttemptingRewards
| LRewardsSigned (epochId : Z)
| LRewardsFailed (epochId : Z) (error : JsError)
| LSkippingNotComplete (epochId : Z)
| LCheckComplete
| LErrorInCheckAndSign (error : JsError)
| LAttemptFailed (retries : Z) (error : JsError)
| LRetryingIn (seconds : Z)
| LMaxRetriesReached
| LStartingAutomatedSigning
| LWillCheckEvery (minutes : Z).

Inductive Event : Type :=
| Called (c : Call) (thrown : option JsError)
| ConsoleLog (line : LogLine)
| ConsoleError (line : LogLine).

(** What a collaborator answers. *)
Inductive Reply (A : Type) : Type :=
| Returns (a : A)
| Throws (error : JsError).
Arguments Returns {A} a.
Arguments Throws {A} error.

(** The collaborators of the module: each is a function of an external state
    [Ext] that only the environment knows.  [ZERO_BYTES32] is the constant
    imported from [../configs/networks]; [readFileSync_fault] and
    [writeFileSync_fault] say whether the disk refuses the access. *)
Record Collaborators : Type := {
  Ext : Type;
  ZERO_BYTES32 : jsstring;
  initializeFlareSystemsManager : Ext -> Reply unit * Ext;
  getCurrentRewardEpochId : Ext -> Reply Z * Ext;
  uptimeVoteHash : Z -> Ext -> Reply jsstring * Ext;
  getUptimeVoteHash : Ext -> Reply jsstring * Ext;
  signUptimeVote : Z -> jsstring -> Ext -> Reply unit * Ext;
  rewardsHash : Z -> Ext -> Reply jsstring * Ext;
  getRewardsData : Z -> Ext -> Reply (jsstring * Z) * Ext;
  signRewards : Z -> jsstring -> Z -> Ext -> Reply unit * Ext;
  readFileSync_fault : Ext -> option JsError * Ext;
  writeFileSync_fault : jsstring -> Ext -> option JsError * Ext
}.

(** ** The world and the monad of effects *)

(** [file] is the content of the checkpoint file [STATE_FILE] ([None]: no
    such file); [log] lists, oldest first, what the process did. *)
Record World (C : Collaborators) : Type := {
  ext : Ext C;
  file : option jsstring;
  log : list Event
}.
Arguments ext {C} w.
Arguments file {C} w.
Arguments log {C} w.
Arguments Build_World {C} ext file log.

(** Result of a computation: a value, a thrown error, or [IllTyped] when the
    run reads a checkpoint that is no [SigningState] (the embedding does not
    follow JavaScript's coercions beyond that point). *)
Inductive Outcome (A : Type) : Type :=
| Normal (a : A)
| Thrown (error : JsError)
| IllTyped.
Arguments Normal {A} a.
Arguments Thrown {A} error.
Arguments IllTyped {A}.

Definition M (C : Collaborators) (A : Type) : Type :=
  World C -> Outcome A * World C.

Section Effects.

Context {C : Collaborators}.

Definition ret {A} (a : A) : M C A := fun w => (Normal a, w).

Definition bind {A B} (m : M C A) (k : A -> M C B) : M C B :=
  fun w =>
    match m w with
    | (Normal a, w') => k a w'
    | (Thrown e, w') => (Thrown e, w')
    | (IllTyped, w') => (IllTyped, w')
    end.

Definition throw {A} (e : JsError) : M C A := fun w => (Thrown e, w).

Definition ill_typed {A} : M C A := fun w => (IllTyped, w).

(** [try { body } catch (error) { handler error }] *)
Definition try_catch {A} (body : M C A) (handler : JsError -> M C A)
  : M C A :=
  fun w =>
    match body w with
    | (Thrown e, w') => handler e w'
    | r => r
    end.

Definition emit (ev : Event) : M C unit :=
  fun w => (Normal tt, Build_World (ext w) (file w) (log w ++ [ev])).

Definition console_log (l : LogLine) : M C unit := emit (ConsoleLog l).
Definition console_error (l : LogLine) : M C unit := emit (ConsoleError l).

(** A call to a collaborator: it answers from the external state, and the
    call is recorded with what it threw, if anything. *)
Definition call {A} (c : Call) (h : Ext C -> Reply A * Ext C) : M C A :=
  fun w =>
    match h (ext w) with
    | (Returns a, x) =>
        (Normal a, Build_World x (file w) (log w ++ [Called c None]))
    | (Throws e, x) =>
        (Thrown e, Build_World x (file w) (log w ++ [Called c (Some e)]))
    end.

End Effects.

Declare Scope js_scope.
Delimit Scope js_scope with js.
Notation "x <- m ;; k" := (bind m (fun x => k))
  (at level 61, m at next level, right associativity) : js_scope.
Notation "m ;; k" := (bind m (fun _ => k))
  (at level 61, right associativity) : js_scope.
Local Open Scope js_scope.

(** ** The state store *)

Definition KEY_lastCompletedEpoch : jsstring := js "lastCompletedEpoch".

(** The object [{ lastCompletedEpoch: n }] as a JSON value. *)
Definition state_value (st : SigningState) : Json.value :=
  Json.JObj
    [(KEY_lastCompletedEpoch,
      Json.JNum (Json.number_text (lastCompletedEpoch st)))].

Definition default_state : SigningState := {| lastCompletedEpoch := -1 |}.

(** [JSON.stringify(state, null, 2)] on a [SigningState]: one member,
    indented by two spaces. *)
Definition JSON_stringify (state : SigningState) : jsstring :=
  (js "{" ++ [NEWLINE] ++ js "  "
   ++ [QUOTE] ++ KEY_lastCompletedEpoch ++ [QUOTE] ++ js ": "
   ++ Json.number_text (lastCompletedEpoch state)
   ++ [NEWLINE] ++ js "}")%list.

Arguments JSON_stringify : simpl never.

Definition SyntaxError : JsError :=
  {| reason := None; message := Some (js "Unexpected token in JSON") |}.

Definition ENOENT : JsError :=
  {| reason := None;
     message := Some (js "ENOENT: no such file or directory") |}.

Definition TypeError_null : JsError :=
  {| reason := None;
     message := Some (js "Cannot read properties of null") |}.

(** The value of the field [lastCompletedEpoch] of a loaded state. *)
Definition field_lastCompletedEpoch (state : Json.value) : Outcome Z :=
  match state with
  | Json.JNull => Thrown TypeError_null
  | Json.JObj members =>
      match Json.get_member KEY_lastCompletedEpoch members with
      | Some (Json.JNum lit) =>
          match Json.integer_of_literal lit with
          | Some n => Normal n
          | None => IllTyped
          end
      | _ => IllTyped
      end
  | _ => IllTyped
  end.

Section Program.

Context {C : Collaborators}.

Definition existsSync : M C bool :=
  fun w => (Normal (match file w with Some _ => true | None => false end), w).

Definition readFileSync : M C jsstring :=
  fun w =>
    let (fault, x) := readFileSync_fault C (ext w) in
    let thrown e :=
      (Thrown e,
       Build_World x (file w) (log w ++ [Called CReadFileSync (Some e)])) in
    match fault, file w with
    | Some e, _ => thrown e
    | None, None => thrown ENOENT
    | None, Some data =>
        (Normal data,
         Build_World x (file w) (log w ++ [Called CReadFileSync None]))
    end.

(** A refused write leaves the file as it was. *)
Definition writeFileSync (data : jsstring) : M C unit :=
  fun w =>
    match writeFileSync_fault C data (ext w) with
    | (Some e, x) =>
        (Thrown e,
         Build_World x (file w)
           (log w ++ [Called (CWriteFileSync data) (Some e)]))
    | (None, x) =>
        (Normal tt,
         Build_World x (Some data)
           (log w ++ [Called (CWriteFileSync data) None]))
    end.

Definition JSON_parse (data : jsstring) : M C Json.value :=
  match Json.parse data with
  | Some v => ret v
  | None => throw SyntaxError
  end.

(** [loadState]: the value it returns is whatever [JSON.parse] built; the
    annotation [SigningState] is not checked at run time. *)
Definition loadState : M C Json.value :=
  returned <-
    try_catch
      (present <- existsSync ;;
       if present then
         data <- readFileSync ;;
         v <- JSON_parse data ;;
         ret (Some v)
       else ret None)
      (fun error =>
         console_error (LErrorLoadingState error) ;;
         ret None) ;;
  match returned with
  | Some v => ret v
  | None => ret (state_value default_state)
  end.

Definition saveState (state : SigningState) : M C unit :=
  try_catch
    (writeFileSync (JSON_stringify state))
    (fun error => console_error (LErrorSavingState error)).

(** ** The reconciliation routine *)

(** The read [state.lastCompletedEpoch]: a [TypeError] on [null]; an integer
    on a [SigningState]; outside the typed fragment otherwise. *)
Definition get_lastCompletedEpoch (state : Json.value) : M C Z :=
  fun w => (field_lastCompletedEpoch state, w).

(** [hash && hash.toString() !== ZERO_BYTES32] *)
Definition isHash (hash : jsstring) : bool :=
  negb (jsstring_eqb hash []) && negb (jsstring_eqb hash (ZERO_BYTES32 C)).

Definition EPOCH_NOT_ENDED : jsstring := js "epoch not ended".

(** [error.field?.includes('epoch not ended')] *)
Definition field_includes (field : option jsstring) : bool :=
  match field with
  | Some s => includes EPOCH_NOT_ENDED s
  | None => false
  end.

Definition is_epoch_not_ended (error : JsError) : bool :=
  field_includes (reason error) || field_includes (message error).

Inductive LoopCtl : Type := Continue | Break.

(** Body of the [for] loop of [checkAndSign] at [epochId]; it yields how the
    loop goes on and the new value of [lastFullyCompletedEpoch]. *)
Definition for_body (epochId : Z) (lastFullyCompletedEpoch : Z)
  : M C (LoopCtl * Z) :=
  console_log (LCheckingEpoch epochId) ;;
  uptimeHash <- call (CUptimeVoteHash epochId) (uptimeVoteHash C epochId) ;;
  flags <-
    (if isHash uptimeHash then
       console_log (LUptimeAlreadySigned epochId) ;;
       ret (false, true)
     else
       console_log (LUptimeNotSigned epochId) ;;
       console_log LAttemptingUptime ;;
       fakeVoteHash <- call CGetUptimeVoteHash (getUptimeVoteHash C) ;;
       try_catch
         (call (CSignUptimeVote epochId fakeVoteHash)
               (signUptimeVote C epochId fakeVoteHash) ;;
          console_log (LUptimeSigned epochId) ;;
          ret (false, true))
         (fun error =>
            if is_epoch_not_ended error then
              console_log (LEpochNotEnded epochId) ;;
              ret (true, false)
            else
              console_error (LUptimeFailed epochId error) ;;
              ret (false, false))) ;;
  let '(epochNotEnded, epochFullyCompleted) := flags in
  if (epochNotEnded : bool) then
    console_log (LSkippingNotEnded epochId) ;;
    ret (Break, lastFullyCompletedEpoch)
  else
    hash <- call (CRewardsHash epochId) (rewardsHash C epochId) ;;
    completed <-
      (if isHash hash then
         console_log (LRewardsAlreadySigned epochId) ;;
         ret (Some epochFullyCompleted)
       else
         console_log (LRewardsNotSigned epochId) ;;
         try_catch
           (console_log LAttemptingRewards ;;
            data <- call (CGetRewardsData epochId) (getRewardsData C epochId) ;;
            let '(rewardsHash', noOfWeightBasedClaims) := data in
            call (CSignRewards epochId rewardsHash' noOfWeightBasedClaims)
                 (signRewards C epochId rewardsHash' noOfWeightBasedClaims) ;;
            console_log (LRewardsSigned epochId) ;;
            ret (Some epochFullyCompleted))
           (fun error =>
              console_error (LRewardsFailed epochId error) ;;
              console_log (LSkippingNotComplete epochId) ;;
              ret None)) ;;
    match completed with
    | None => ret (Break, lastFullyCompletedEpoch)
    | Some true =>
        saveState {| lastCompletedEpoch := epochId |} ;;
        ret (Continue, epochId)
    | Some false => ret (Continue, lastFullyCompletedEpoch)
    end.

(** [for (epochId = ...; epochId <= currentRewardEpochId; epochId++)], with
    [n] the number of epochs from [epochId] to the current one. *)
Fixpoint for_epochs (n : nat) (epochId : Z) (lastFullyCompletedEpoch : Z)
  : M C Z :=
  match n with
  | O => ret lastFullyCompletedEpoch
  | S n' =>
      r <- for_body epochId lastFullyCompletedEpoch ;;
      match r with
      | (Break, l) => ret l
      | (Continue, l) => for_epochs n' (epochId + 1) l
      end
  end.

Definition startEpoch_of (last currentRewardEpochId : Z) : Z :=
  Z.max (last + 1) (currentRewardEpochId - 4).

(** The [try] block of [checkAndSign]. *)
Definition checkAndSign_try : M C unit :=
  call CInitializeFlareSystemsManager (initializeFlareSystemsManager C) ;;
  currentRewardEpochId <-
    call CGetCurrentRewardEpochId (getCurrentRewardEpochId C) ;;
  state <- loadState ;;
  last <- get_lastCompletedEpoch state ;;
  let startEpoch := startEpoch_of last currentRewardEpochId in
  console_log (LCheckingEpochs startEpoch currentRewardEpochId) ;;
  console_log (LLastCompletedEpoch last) ;;
  for_epochs (Z.to_nat (currentRewardEpochId - startEpoch + 1))
             startEpoch last ;;
  console_log LCheckComplete.

Definition checkAndSign : M C unit :=
  try_catch checkAndSign_try
    (fun error => console_error (LErrorInCheckAndSign error)).

(** What a run reads before it scans: the current reward epoch of the
    contract and the checkpoint it loads (the first four steps of
    [checkAndSign_try]). *)
Definition readInputs : M C (Z * Z) :=
  call CInitializeFlareSystemsManager (initializeFlareSystemsManager C) ;;
  currentRewardEpochId <-
    call CGetCurrentRewardEpochId (getCurrentRewardEpochId C) ;;
  state <- loadState ;;
  last <- get_lastCompletedEpoch state ;;
  ret (currentRewardEpochId, last).

(** ** The retry wrapper *)

(** [await attempt] inside [runWithRetry], recorded as a call. *)
Definition invoke (attempt : M C unit) : M C unit :=
  fun w =>
    match attempt w with
    | (Normal tt, w') =>
        (Normal tt,
         Build_World (ext w') (file w') (log w' ++ [Called CCheckAndSign None]))
    | (Thrown e, w') =>
        (Thrown e,
         Build_World (ext w') (file w')
           (log w' ++ [Called CCheckAndSign (Some e)]))
    | (IllTyped, w') => (IllTyped, w')
    end.

Definition setTimeout (ms : Z) : M C unit :=
  emit (Called (CSetTimeout ms) None).

(** [while (retries < MAX_RETRIES) { ... }]: the result tells whether the
    loop was left by [return]. *)
Fixpoint while_retries (attempt : M C unit) (fuel : nat) (retries : Z)
  : M C bool :=
  match fuel with
  | O => ret false
  | S fuel' =>
      if retries <? MAX_RETRIES then
        r <-
          try_catch
            (invoke attempt ;; ret None)
            (fun error =>
               let retries := retries + 1 in
               console_error (LAttemptFailed retries error) ;;
               (if retries <? MAX_RETRIES then
                  console_log (LRetryingIn (RETRY_DELAY / 1000)) ;;
                  setTimeout RETRY_DELAY
                else ret tt) ;;
               ret (Some retries)) ;;
        match r with
        | None => ret true
        | Some retries' => while_retries attempt fuel' retries'
        end
      else ret false
  end.

Definition runWithRetry_of (attempt : M C unit) : M C unit :=
  returned <- while_retries attempt (Z.to_nat MAX_RETRIES) 0 ;;
  if (returned : bool) then ret tt else console_error LMaxRetriesReached.

Definition runWithRetry : M C unit := runWithRetry_of checkAndSign.

(** [n] successive runs of the wrapper, one after the other: the runs a
    process makes when none of them overlaps the next. *)
Fixpoint runs (n : nat) : M C unit :=
  match n with
  | O => ret tt
  | S n' => runWithRetry ;; runs n'
  end.


End Program.

(** ** Scripted collaborators

    A chain whose answers are fixed by a script, for the scenarios of the
    specification.  The external state counts the reads of the checkpoint
    file, so that a script can make one particular read fail. *)

Module Scripted.

Record Script : Type := {
  current : Z;
  uptime : Z -> jsstring;
  rewards : Z -> jsstring;
  uptimeVoteError : Z -> option JsError;
  rewardsData : Z -> Reply (jsstring * Z);
  rewardsError : Z -> option JsError;
  readFault : nat -> option JsError;
  writeFault : jsstring -> option JsError
}.

Definition ZERO : jsstring :=
  js "0x0000000000000000000000000000000000000000000000000000000000000000".

Definition reply_of (e : option JsError) : Reply unit :=
  match e with
  | Some err => Throws err
  | None => Returns tt
  end.

Definition collaborators (s : Script) : Collaborators := {|
  Ext := nat;
  ZERO_BYTES32 := ZERO;
  initializeFlareSystemsManager := fun x => (Returns tt, x);
  getCurrentRewardEpochId := fun x => (Returns (current s), x);
  uptimeVoteHash := fun e x => (Returns (uptime s e), x);
  getUptimeVoteHash := fun x => (Returns (js "0xfa4e"), x);
  signUptimeVote := fun e _ x => (reply_of (uptimeVoteError s e), x);
  rewardsHash := fun e x => (Returns (rewards s e), x);
  getRewardsData := fun e x => (rewardsData s e, x);
  signRewards := fun e _ _ x => (reply_of (rewardsError s e), x);
  readFileSync_fault := fun x => (readFault s x, S x);
  writeFileSync_fault := fun data x => (writeFault s data, x)
|}.

(** The world a process starts in: nothing logged, no read made yet. *)
Definition world (s : Script) (f : option jsstring)
  : World (collaborators s) :=
  Build_World (C := collaborators s) O f [].

Definition SIGNED : jsstring := js "0x5167".

Definition error_of (msg : string) : JsError :=
  {| reason := None; message := Some (js msg) |}.

End Scripted.

(** ** Reading the log *)

(** The epoch a call to the contract or to the signer is about. *)
Definition event_epoch (ev : Event) : option Z :=
  match ev with
  | Called (CUptimeVoteHash e) _
  | Called (CSignUptimeVote e _) _
  | Called (CRewardsHash e) _
  | Called (CGetRewardsData e) _
  | Called (CSignRewards e _ _) _ => Some e
  | _ => None
  end.

Definition about_epoch (ev : Event) : bool :=
  match event_epoch ev with
  | Some _ => true
  | None => false
  end.

(** A signature submission (uptime vote or rewards). *)
Definition is_submission (ev : Event) : bool :=
  match ev with
  | Called (CSignUptimeVote _ _) _ | Called (CSignRewards _ _ _) _ => true
  | _ => false
  end.

(** The rewards check of an epoch and what it leads to. *)
Definition is_rewards_call (ev : Event) : bool :=
  match ev with
  | Called (CRewardsHash _) _
  | Called (CGetRewardsData _) _
  | Called (CSignRewards _ _ _) _ => true
  | _ => false
  end.

(** The failures after which the scan stops: an uptime vote refused with
    "epoch not ended", a rewards fetch or a rewards submission that throws. *)
Definition halts (ev : Event) : bool :=
  match ev with
  | Called (CSignUptimeVote _ _) (Some error) => is_epoch_not_ended error
  | Called (CGetRewardsData _) (Some _)
  | Called (CSignRewards _ _ _) (Some _) => true
  | _ => false
  end.

Definition is_write (ev : Event) : bool :=
  match ev with
  | Called (CWriteFileSync _) _ => true
  | _ => false
  end.

Definition is_read (ev : Event) : bool :=
  match ev with
  | Called CReadFileSync _ => true
  | _ => false
  end.

Definition read_failed (ev : Event) : bool :=
  match ev with
  | Called CReadFileSync (Some _) => true
  | _ => false
  end.


(** The texts given to [writeFileSync], in order, each with whether the
    write went through. *)
Fixpoint writes (evs : list Event) : list (jsstring * bool) :=
  match evs with
  | [] => []
  | Called (CWriteFileSync data) None :: evs' => (data, true) :: writes evs'
  | Called (CWriteFileSync data) (Some _) :: evs' =>
      (data, false) :: writes evs'
  | _ :: evs' => writes evs'
  end.

(** The content of the file after the writes [ws], from content [f]. *)
Fixpoint file_after (ws : list (jsstring * bool)) (f : option jsstring)
  : option jsstring :=
  match ws with
  | [] => f
  | (data, true) :: ws' => file_after ws' (Some data)
  | (_, false) :: ws' => file_after ws' f
  end.

(** The text [saveState] writes for the checkpoint [epochId]. *)
Definition checkpoint_text (epochId : Z) : jsstring :=
  JSON_stringify {| lastCompletedEpoch := epochId |}.

(** What a run appended to the log. *)
Definition new_events {C : Collaborators} (w w' : World C) : list Event :=
  skipn (List.length (log w)) (log w').

(** What [loadState] returns when the disk answers: the parsed content of
    the file, the default state when there is no file or no JSON in it. *)
Definition stored_value (f : option jsstring) : Json.value :=
  match f with
  | None => state_value default_state
  | Some data =>
      match Json.parse data with
      | Some v => v
      | None => state_value default_state
      end
  end.

(** The persisted [lastCompletedEpoch]. *)
Definition persisted (f : option jsstring) : Outcome Z :=
  field_lastCompletedEpoch (stored_value f).

(** The checkpoint a text of the file stands for. *)
Definition checkpoint_of_text (data : jsstring) : option Z :=
  match Json.parse data with
  | Some v =>
      match field_lastCompletedEpoch v with
      | Normal n => Some n
      | _ => None
      end
  | None => None
  end.

(** The checkpoints [saveState] was called with, in order, each with whether
    the write went through.  [saveState] is called exactly for the epochs
    found fully completed. *)
Fixpoint saves (ws : list (jsstring * bool)) : list (Z * bool) :=
  match ws with
  | [] => []
  | (data, ok) :: ws' =>
      match checkpoint_of_text data with
      | Some k => (k, ok) :: saves ws'
      | None => saves ws'
      end
  end.

(** Epochs found fully completed (the save may have failed). *)
Definition completed_epochs (evs : list Event) : list Z :=
  List.map fst (saves (writes evs)).

(** Epochs whose checkpoint reached the file. *)
Definition saved_epochs (evs : list Event) : list Z :=
  List.map fst (List.filter snd (saves (writes evs))).

Definition last_of (l : list Z) : option Z :=
  match rev l with
  | [] => None
  | k :: _ => Some k
  end.

(** Events that concern no epoch and write no file. *)
Definition quiet (ev : Event) : Prop :=
  event_epoch ev = None /\ is_write ev = false.

Definition stops {A} (r : Outcome (LoopCtl * A)) : bool :=
  match r with
  | Normal (Continue, _) => false
  | _ => true
  end.

(** What one turn of the loop at epoch [e] may log; [stop] tells that the
    loop does not go on to the next epoch. *)
Definition iteration_trace (e : Z) (stop : bool) (evs : list Event) : Prop :=
  Forall (fun ev => event_epoch ev = None \/ event_epoch ev = Some e) evs
  /\ (forall ev, In ev evs -> halts ev = true -> stop = true)
  /\ (forall h err, In (Called (CSignUptimeVote e h) (Some err)) evs ->
        is_epoch_not_ended err = true ->
        Forall (fun ev => is_rewards_call ev = false) evs)
  /\ (forall h err, In (Called (CSignUptimeVote e h) (Some err)) evs ->
        is_epoch_not_ended err = false ->
        exists t, In (Called (CRewardsHash e) t) evs)
  /\ (writes evs = [] \/
      (stop = false /\ exists ok, writes evs = [(checkpoint_text e, ok)]))
  /\ Forall (fun ev => is_read ev = false) evs
  /\ (exists t rest,
        evs = ConsoleLog (LCheckingEpoch e) :: Called (CUptimeVoteHash e) t
              :: rest).

(** What a scan of [n] epochs from [s] may log. *)
Inductive scan_trace : Z -> nat -> list Event -> Prop :=
| scan_done (s : Z) : scan_trace s O []
| scan_stop (s : Z) (n : nat) (evs : list Event) :
    iteration_trace s true evs -> scan_trace s (S n) evs
| scan_next (s : Z) (n : nat) (evs rest : list Event) :
    iteration_trace s false evs -> scan_trace (s + 1) n rest ->
    scan_trace s (S n) (evs ++ rest).

(** Events of the retry wrapper itself. *)
Definition is_wrapper_event (ev : Event) : bool :=
  match ev with
  | Called CCheckAndSign _
  | Called (CSetTimeout _) _
  | ConsoleError (LAttemptFailed _ _)
  | ConsoleLog (LRetryingIn _)
  | ConsoleError LMaxRetriesReached => true
  | _ => false
  end.

Definition wrapper_events (evs : list Event) : list Event :=
  List.filter is_wrapper_event evs.

(** What [loadState] returns, from the file and the answer of the disk. *)
Definition loaded_value {C : Collaborators} (w : World C) : Json.value :=
  match file w with
  | None => state_value default_state
  | Some data =>
      match fst (readFileSync_fault C (ext w)) with
      | Some _ => state_value default_state
      | None =>
          match Json.parse data with
          | Some v => v
          | None => state_value default_state
          end
      end
  end.





(** What the wrapper logs around its attempts. *)
Definition attempt_done : list Event := [Called CCheckAndSign None].





(** ** Scenarios *)

Module Scenario.
Import Scripted.

Definition no_error : Z -> option JsError := fun _ => None.
Definition some_rewards : Z -> Reply (jsstring * Z) :=
  fun _ => Returns (js "0x4e7a", 5).

(** Every epoch is signed already, nothing fails. *)
Definition settled (currentEpoch : Z) : Script := {|
  current := currentEpoch;
  uptime := fun _ => SIGNED;
  rewards := fun _ => SIGNED;
  uptimeVoteError := no_error;
  rewardsData := some_rewards;
  rewardsError := no_error;
  readFault := fun _ => None;
  writeFault := fun _ => None
|}.



Definition not_ended_error : JsError :=
  {| reason := Some (js "execution reverted: epoch not ended yet");
     message := None |}.

(** Scenario C: current epoch 3; the uptime vote of epoch 1 is missing and
    its submission is refused because the epoch has not ended. *)
Definition epoch_not_ended : Script := {|
  current := 3;
  uptime := fun e => if e =? 1 then ZERO else SIGNED;
  rewards := fun _ => SIGNED;
  uptimeVoteError := fun e => if e =? 1 then Some not_ended_error else None;
  rewardsData := some_rewards;
  rewardsError := no_error;
  readFault := fun _ => None;
  writeFault := fun _ => None
|}.

Definition fetch_error : JsError := error_of "rewards data not published".


Definition nonce_error : JsError := error_of "nonce too low".

(** Current epoch 1; the uptime vote of epoch 0 is missing and its
    submission fails for a reason of its own; all the rest is signed. *)
Definition uptime_vote_rejected : Script := {|
  current := 1;
  uptime := fun e => if e =? 0 then ZERO else SIGNED;
  rewards := fun _ => SIGNED;
  uptimeVoteError := fun e => if e =? 0 then Some nonce_error else None;
  rewardsData := some_rewards;
  rewardsError := no_error;
  readFault := fun _ => None;
  writeFault := fun _ => None
|}.

(** Scenario A: current epoch 0, nothing signed yet, every submission is
    accepted (the hashes on the contract stay empty during the run). *)
Definition nothing_signed : Script := {|
  current := 0;
  uptime := fun _ => ZERO;
  rewards := fun _ => ZERO;
  uptimeVoteError := no_error;
  rewardsData := some_rewards;
  rewardsError := no_error;
  readFault := fun _ => None;
  writeFault := fun _ => None
|}.

(** Scenario E: current epoch 2; the rewards of epoch 2 are missing and
    their data cannot be fetched. *)
Definition rewards_unavailable : Script := {|
  current := 2;
  uptime := fun _ => SIGNED;
  rewards := fun e => if e =? 2 then ZERO else SIGNED;
  uptimeVoteError := no_error;
  rewardsData := fun _ => Throws fetch_error;
  rewardsError := no_error;
  readFault := fun _ => None;
  writeFault := fun _ => None
|}.


End Scenario.

(** ** More readings of the log *)

(** The kinds of call a scan makes about an epoch. *)
Inductive EpochCall : Type :=
| KUptimeVoteHash
| KSignUptimeVote
| KRewardsHash
| KGetRewardsData
| KSignRewards.

Definition call_kind (ev : Event) : option EpochCall :=
  match ev with
  | Called (CUptimeVoteHash _) _ => Some KUptimeVoteHash
  | Called (CSignUptimeVote _ _) _ => Some KSignUptimeVote
  | Called (CRewardsHash _) _ => Some KRewardsHash
  | Called (CGetRewardsData _) _ => Some KGetRewardsData
  | Called (CSignRewards _ _ _) _ => Some KSignRewards
  | _ => None
  end.

Definition EpochCall_eqb (a b : EpochCall) : bool :=
  match a, b with
  | KUptimeVoteHash, KUptimeVoteHash
  | KSignUptimeVote, KSignUptimeVote
  | KRewardsHash, KRewardsHash
  | KGetRewardsData, KGetRewardsData
  | KSignRewards, KSignRewards => true
  | _, _ => false
  end.

(** The epochs of the calls of kind [k], in the order of the log. *)
Fixpoint epochs_of (k : EpochCall) (evs : list Event) : list Z :=
  match evs with
  | [] => []
  | ev :: evs' =>
      match call_kind ev, event_epoch ev with
      | Some k', Some e =>
          if EpochCall_eqb k k' then e :: epochs_of k evs'
          else epochs_of k evs'
      | _, _ => epochs_of k evs'
      end
  end.

(** The epochs [s], [s + 1], ..., [n] of them. *)
Fixpoint epochs_from (s : Z) (n : nat) : list Z :=
  match n with
  | O => []
  | S n' => s :: epochs_from (s + 1) n'
  end.

(** What a call threw, if it threw. *)
Definition thrown_by (ev : Event) : option JsError :=
  match ev with
  | Called _ thrown => thrown
  | _ => None
  end.

(** The error of a call that no handler inside the loop catches: a hash
    read or the computation of the vote hash. *)
Definition uncaught_error (ev : Event) : option JsError :=
  match ev with
  | Called (CUptimeVoteHash _) thrown
  | Called CGetUptimeVoteHash thrown
  | Called (CRewardsHash _) thrown => thrown
  | _ => None
  end.

Definition last_event (evs : list Event) : option Event :=
  match rev evs with
  | [] => None
  | ev :: _ => Some ev
  end.

Section ScanOf.

Context {C : Collaborators}.

(** The world a scan starts in: the one left by the reading of the inputs,
    with the two header lines on the console. *)
Definition scan_world (w0 : World C) (current last : Z) : World C :=
  Build_World (ext w0) (file w0)
    (log w0 ++ [ConsoleLog (LCheckingEpochs (startEpoch_of last current)
                                             current);
                ConsoleLog (LLastCompletedEpoch last)]).

(** The [for] loop of a run that read [current] and loaded [last]. *)
Definition scan_of (w0 : World C) (current last : Z) : Outcome Z * World C :=
  for_epochs (Z.to_nat (current - startEpoch_of last current + 1))
    (startEpoch_of last current) last (scan_world w0 current last).

Definition scan_events (w0 : World C) (current last : Z) : list Event :=
  new_events (scan_world w0 current last) (snd (scan_of w0 current last)).

(** Collaborators that answer every call and a disk that accepts every
    access. *)
Definition never_fails : Prop :=
  (forall x, exists x', initializeFlareSystemsManager C x = (Returns tt, x'))
  /\ (forall x, exists c x', getCurrentRewardEpochId C x = (Returns c, x'))
  /\ (forall e x, exists h x', uptimeVoteHash C e x = (Returns h, x'))
  /\ (forall x, exists h x', getUptimeVoteHash C x = (Returns h, x'))
  /\ (forall e h x, exists x', signUptimeVote C e h x = (Returns tt, x'))
  /\ (forall e x, exists h x', rewardsHash C e x = (Returns h, x'))
  /\ (forall e x, exists d x', getRewardsData C e x = (Returns d, x'))
  /\ (forall e h n x, exists x', signRewards C e h n x = (Returns tt, x'))
  /\ (forall x, fst (readFileSync_fault C x) = None)
  /\ (forall d x, fst (writeFileSync_fault C d x) = None).

(** The contract shows the uptime vote hash of epoch [e] at every moment. *)
Definition uptime_vote_signed (e : Z) : Prop :=
  forall x, exists h x',
    uptimeVoteHash C e x = (Returns h, x') /\ isHash (C := C) h = true.

(** The contract shows the rewards hash of epoch [e] at every moment. *)
Definition rewards_signed (e : Z) : Prop :=
  forall x, exists h x',
    rewardsHash C e x = (Returns h, x') /\ isHash (C := C) h = true.

End ScanOf.

Arguments never_fails : clear implicits.
Arguments uptime_vote_signed : clear implicits.
Arguments rewards_signed : clear implicits.

(** The epochs of the calls about an epoch, whatever the call, in the order
    of the log. *)
Fixpoint epochs_touched (evs : list Event) : list Z :=
  match evs with
  | [] => []
  | ev :: evs' =>
      match event_epoch ev with
      | Some e => e :: epochs_touched evs'
      | None => epochs_touched evs'
      end
  end.

(** What comes before a submission, among the events [seen]: the read of
    the uptime vote hash of the same epoch returned; for an uptime vote,
    the vote hash was computed; for the rewards, the read of the rewards
    hash of the same epoch returned and the rewards data of the epoch were
    fetched. *)
Definition checked_before (seen : list Event) (ev : Event) : Prop :=
  match ev with
  | Called (CSignUptimeVote e _) _ =>
      In (Called (CUptimeVoteHash e) None) seen
      /\ In (Called CGetUptimeVoteHash None) seen
  | Called (CSignRewards e _ _) _ =>
      In (Called (CUptimeVoteHash e) None) seen
      /\ In (Called (CRewardsHash e) None) seen
      /\ In (Called (CGetRewardsData e) None) seen
  | _ => True
  end.

(** Every event of [evs] has before it, in [seen] or in [evs], what it
    needs. *)
Fixpoint guarded (seen evs : list Event) : Prop :=
  match evs with
  | [] => True
  | ev :: evs' => checked_before seen ev /\ guarded (ev :: seen) evs'
  end.

(** No call about an epoch comes after a write of the file. *)
Fixpoint saved_last (evs : list Event) : Prop :=
  match evs with
  | [] => True
  | ev :: evs' =>
      (is_write ev = true -> epochs_touched evs' = []) /\ saved_last evs'
  end.

(** What one turn of the loop at epoch [e] calls, throws and writes; [r] is
    the outcome of the turn. *)
Definition iteration_calls (e : Z) (r : Outcome (LoopCtl * Z))
           (evs : list Event) : Prop :=
  epochs_of KUptimeVoteHash evs = [e]
  /\ (forall k, epochs_of k evs = [] \/ epochs_of k evs = [e])
  /\ Forall (fun ev => forall e', event_epoch ev = Some e' -> e' = e) evs
  /\ (writes evs = [] \/ exists ok, writes evs = [(checkpoint_text e, ok)])
  /\ (writes evs <> [] ->
      Forall (fun ev => thrown_by ev = None \/ is_write ev = true) evs
      /\ In (Called (CUptimeVoteHash e) None) evs
      /\ In (Called (CRewardsHash e) None) evs)
  /\ (forall err, r = Thrown err ->
      exists ev, last_event evs = Some ev /\ uncaught_error ev = Some err)
  /\ (forall ev err, In ev evs -> uncaught_error ev = Some err ->
      r = Thrown err /\ last_event evs = Some ev)
  /\ (stops r = true ->
      writes evs = []
      /\ exists ev, In ev evs
                    /\ (halts ev = true \/ uncaught_error ev <> None))
  /\ Forall (fun ev => is_wrapper_event ev = false) evs
  /\ guarded [] evs
  /\ saved_last evs
  /\ r <> IllTyped.

(** The outcome of the loop when a turn stops it. *)
Definition loop_outcome (r : Outcome (LoopCtl * Z)) : Outcome Z :=
  match r with
  | Normal (_, l) => Normal l
  | Thrown e => Thrown e
  | IllTyped => IllTyped
  end.

(** What a scan of [n] epochs from [s] calls, with its outcome. *)
Inductive scan_run : Z -> nat -> Outcome Z -> list Event -> Prop :=
| scan_run_done (s l : Z) : scan_run s O (Normal l) []
| scan_run_stop (s : Z) (n : nat) (r : Outcome (LoopCtl * Z))
                (evs : list Event) :
    iteration_calls s r evs -> stops r = true ->
    scan_run s (S n) (loop_outcome r) evs
| scan_run_next (s : Z) (n : nat) (l : Z) (evs : list Event)
                (r' : Outcome Z) (rest : list Event) :
    iteration_calls s (Normal (Continue, l)) evs ->
    scan_run (s + 1) n r' rest ->
    scan_run s (S n) r' (evs ++ rest).

(** The line that closes a run, from the outcome of its loop. *)
Definition closing_line (r : Outcome Z) : Event :=
  match r with
  | Thrown e => ConsoleError (LErrorInCheckAndSign e)
  | _ => ConsoleLog LCheckComplete
  end.

(** A submission carries what the collaborators returned: the vote hash
    computed by [getUptimeVoteHash], the rewards data fetched for the epoch
    it is submitted for. *)
Definition payload_fetched (C : Collaborators) (ev : Event) : Prop :=
  match ev with
  | Called (CSignUptimeVote _ h) _ =>
      exists x x', getUptimeVoteHash C x = (Returns h, x')
  | Called (CSignRewards e h n) _ =>
      exists x x', getRewardsData C e x = (Returns (h, n), x')
  | _ => True
  end.

(** ** A chain whose hash reads can fail

    As the scripted chain, except that the read of the rewards hash of the
    epoch [bad] throws. *)

Module Flaky.
Import Scripted.

Definition timeout_error : JsError := error_of "request timed out".

Definition collaborators (s : Script) (bad : Z) : Collaborators := {|
  Ext := nat;
  ZERO_BYTES32 := ZERO;
  initializeFlareSystemsManager := fun x => (Returns tt, x);
  getCurrentRewardEpochId := fun x => (Returns (current s), x);
  uptimeVoteHash := fun e x => (Returns (uptime s e), x);
  getUptimeVoteHash := fun x => (Returns (js "0xfa4e"), x);
  signUptimeVote := fun e _ x => (reply_of (uptimeVoteError s e), x);
  rewardsHash := fun e x =>
    if e =? bad then (Throws timeout_error, x)
    else (Returns (rewards s e), x);
  getRewardsData := fun e x => (rewardsData s e, x);
  signRewards := fun e _ _ x => (reply_of (rewardsError s e), x);
  readFileSync_fault := fun x => (readFault s x, S x);
  writeFileSync_fault := fun data x => (writeFault s data, x)
|}.

Definition world (s : Script) (bad : Z) (f : option jsstring)
  : World (collaborators s bad) :=
  Build_World (C := collaborators s bad) O f [].

End Flaky.

(** * Properties *)

(** ** Decimal text and JSON round trip *)

Module JsonFacts.
Import Json.

Lemma chars_uint_uint_chars (u : Decimal.uint) :
  chars_uint (uint_chars u) = Some u.
Proof.
  induction u; simpl; try rewrite IHu; reflexivity.
Qed.

(** The decimal digits of a positive number do not start with a zero. *)
Lemma to_uint_head (p : positive) :
  Pos.to_uint p <> Decimal.Nil /\
  forall u, Pos.to_uint p <> Decimal.D0 u.
Proof.
  split; [apply DecimalPos.Unsigned.to_uint_nonnil|].
  intros u E.
  assert (Hnorm : Pos.to_uint p = Decimal.unorm (Pos.to_uint p)).
  { change (Pos.to_uint p) with (N.to_uint (Npos p)) at 1.
    rewrite <- (DecimalPos.Unsigned.of_to p).
    now rewrite DecimalPos.Unsigned.to_of. }
  unfold Decimal.unorm in Hnorm.
  destruct (Decimal.nzhead (Pos.to_uint p)) eqn:H; try congruence.
  - apply (DecimalPos.Unsigned.to_uint_nonzero p). exact Hnorm.
  - rewrite E in Hnorm.
    apply (DecimalFacts.nzhead_nonzero (Pos.to_uint p) u).
    rewrite H. now inversion Hnorm.
Qed.

Lemma integer_of_literal_neg (ds : jsstring) (u : Decimal.uint) :
  ds <> [] -> chars_uint ds = Some u ->
  integer_of_literal (45%N :: ds) = Some (Z.of_int (Decimal.Neg u)).
Proof.
  intros Hne Hu. destruct ds as [|d ds]; [congruence|].
  unfold integer_of_literal. change (45 =? 45)%N with true. cbv iota.
  rewrite Hu. reflexivity.
Qed.

Lemma integer_of_literal_pos (c : N) (ds : jsstring) (u : Decimal.uint) :
  (c =? 45)%N = false -> chars_uint (c :: ds) = Some u ->
  integer_of_literal (c :: ds) = Some (Z.of_int (Decimal.Pos u)).
Proof.
  intros Hc Hu. unfold integer_of_literal. rewrite Hc, Hu. reflexivity.
Qed.

Lemma uint_chars_head (u : Decimal.uint) :
  u <> Decimal.Nil ->
  exists c ds, uint_chars u = c :: ds /\ is_digit c = true.
Proof.
  destruct u; [congruence | ..]; intros _; simpl; eauto.
Qed.

Lemma is_digit_not_minus (c : N) : is_digit c = true -> (c =? 45)%N = false.
Proof.
  unfold is_digit. intros H. apply andb_prop in H as [H _].
  apply N.leb_le in H. apply N.eqb_neq. lia.
Qed.

Lemma integer_of_literal_number_text (n : Z) :
  integer_of_literal (number_text n) = Some n.
Proof.
  rewrite <- (DecimalZ.of_to n) at 2.
  unfold number_text.
  destruct n as [|p|p]; simpl Z.to_int.
  - reflexivity.
  - destruct (to_uint_head p) as [Hn _].
    destruct (uint_chars_head _ Hn) as (c & ds & E & Hc).
    generalize (chars_uint_uint_chars (Pos.to_uint p)). rewrite E.
    apply integer_of_literal_pos, is_digit_not_minus, Hc.
  - destruct (to_uint_head p) as [Hn _].
    destruct (uint_chars_head _ Hn) as (c & ds & E & Hc).
    apply integer_of_literal_neg; [congruence|].
    apply chars_uint_uint_chars.
Qed.

Lemma run_app (st : pstate) (a b : jsstring) :
  run st (a ++ b) =
  match run st a with
  | Some st' => run st' b
  | None => None
  end.
Proof.
  revert st. induction a as [|c a IH]; intros st; simpl; [reflexivity|].
  destruct (step st c); [apply IH | reflexivity].
Qed.

(** Digits read inside the integer part of a number are accumulated. *)
Lemma run_digits (stk : list frame) (u : Decimal.uint) :
  forall acc rest,
    run (stk, MNumber NInt acc) (uint_chars u ++ rest) =
    run (stk, MNumber NInt (rev (uint_chars u) ++ acc)) rest.
Proof.
  induction u; intros acc rest; [reflexivity | ..];
    simpl; rewrite IHu, <- app_assoc; reflexivity.
Qed.

(** Reading the decimal text of an integer where a value is expected. *)
Lemma run_number (stk : list frame) (n : Z) (rest : jsstring) :
  run (stk, MValue) (number_text n ++ rest) =
  run (stk, MNumber (if (n =? 0)%Z then NZero else NInt)
              (rev (number_text n))) rest.
Proof.
  unfold number_text.
  destruct n as [|p|p]; simpl Z.to_int; [reflexivity | ..];
    destruct (to_uint_head p) as [Hn H0];
    destruct (Pos.to_uint p) eqn:E;
    try congruence; try (exfalso; apply (H0 _ eq_refl));
    simpl; rewrite run_digits; simpl; rewrite <- ?app_assoc; reflexivity.
Qed.

End JsonFacts.

Lemma parse_stringify (st : SigningState) :
  Json.parse (JSON_stringify st) = Some (state_value st).
Proof.
  destruct st as [n]. unfold Json.parse, JSON_stringify, state_value.
  cbn -[Json.number_text].
  rewrite JsonFacts.run_number.
  destruct (n =? 0); cbn -[Json.number_text]; rewrite rev_involutive;
    reflexivity.
Qed.

Lemma field_state_value (st : SigningState) :
  field_lastCompletedEpoch (state_value st) = Normal (lastCompletedEpoch st).
Proof.
  unfold field_lastCompletedEpoch, state_value.
  cbn -[Json.number_text Json.integer_of_literal].
  now rewrite JsonFacts.integer_of_literal_number_text.
Qed.

Lemma checkpoint_of_text_checkpoint_text (k : Z) :
  checkpoint_of_text (checkpoint_text k) = Some k.
Proof.
  unfold checkpoint_of_text, checkpoint_text.
  now rewrite parse_stringify, field_state_value.
Qed.

Lemma persisted_checkpoint_text (k : Z) :
  persisted (Some (checkpoint_text k)) = Normal k.
Proof.
  unfold persisted, stored_value, checkpoint_text.
  now rewrite parse_stringify, field_state_value.
Qed.

Lemma persisted_None : persisted None = Normal (-1).
Proof. reflexivity. Qed.

(** ** One turn of the loop, and the scan *)

Ltac split_path :=
  match goal with
  | |- context [match ?x with _ => _ end] =>
      lazymatch x with
      | context [match _ with _ => _ end] => fail
      | _ => destruct x eqn:?; simpl
      end
  end.

Ltac forall_refl :=
  repeat (apply Forall_cons; [reflexivity|]); apply Forall_nil.

(** A list of events none of which concerns an epoch or writes the file. *)
Ltac quiet_list :=
  repeat (apply Forall_cons; [split; reflexivity|]);
  first [apply Forall_nil | assumption].

Ltac pick_member := simpl; repeat (first [left; reflexivity | right]).

Lemma writes_app (a b : list Event) : writes (a ++ b) = writes a ++ writes b.
Proof.
  induction a as [|ev a IH]; [reflexivity|].
  destruct ev as [c [e|]| |]; simpl; try apply IH;
    destruct c; simpl; rewrite ?IH; reflexivity.
Qed.

Lemma file_after_app (a b : list (jsstring * bool)) (f : option jsstring) :
  file_after (a ++ b) f = file_after b (file_after a f).
Proof.
  revert f. induction a as [|[d [|]] a IH]; intros f; simpl; auto.
Qed.

Lemma saves_app (a b : list (jsstring * bool)) :
  saves (a ++ b) = saves a ++ saves b.
Proof.
  induction a as [|[d ok] a IH]; [reflexivity|].
  simpl. destruct (checkpoint_of_text d); simpl; now rewrite IH.
Qed.

Lemma writes_quiet (evs : list Event) : Forall quiet evs -> writes evs = [].
Proof.
  induction 1 as [|ev evs [_ Hw] _ IH]; [reflexivity|].
  destruct ev as [c [e|]| |]; simpl; try apply IH;
    destruct c; simpl in *; auto; discriminate.
Qed.

Section Scan.

Context {C : Collaborators}.

Lemma for_body_spec (e l : Z) (w : World C) :
  exists evs,
    log (snd (for_body e l w)) = log w ++ evs
    /\ iteration_trace e (stops (fst (for_body e l w))) evs
    /\ file (snd (for_body e l w)) = file_after (writes evs) (file w)
    /\ fst (for_body e l w) <> IllTyped.
Proof.
  unfold for_body, saveState, writeFileSync, bind, try_catch, call,
    console_log, console_error, emit, ret.
  simpl. repeat split_path.
  all: repeat rewrite <- app_assoc; simpl.
  all: eexists; split; [reflexivity|].
  all: split; [|split; [simpl; reflexivity | discriminate]].
  all: unfold iteration_trace.
  all: split;
    [repeat (apply Forall_cons; [simpl; auto|]); apply Forall_nil|].
  all: split;
    [intros ev Hin Hh; simpl in Hin;
     intuition (subst; simpl in *; congruence)|].
  all: split;
    [intros h err Hin Hh; simpl in Hin;
     intuition (try discriminate; try forall_refl;
                match goal with
                | H : Called _ _ = Called _ _ |- _ =>
                    inversion H; subst; congruence
                end)|].
  all: split;
    [intros h err Hin Hh; simpl in Hin;
     intuition (try discriminate; try (eexists; pick_member; fail);
                match goal with
                | H : Called _ _ = Called _ _ |- _ =>
                    inversion H; subst; congruence
                end)|].
  all: split;
    [simpl;
     first [left; reflexivity
           | right; split; [reflexivity | eexists; reflexivity]]|].
  all: split; [forall_refl | do 2 eexists; reflexivity].
Qed.

Lemma for_epochs_spec (n : nat) :
  forall (s l : Z) (w : World C),
  exists evs,
    log (snd (for_epochs n s l w)) = log w ++ evs
    /\ scan_trace s n evs
    /\ file (snd (for_epochs n s l w)) = file_after (writes evs) (file w)
    /\ fst (for_epochs n s l w) <> IllTyped.
Proof.
  induction n as [|n IH]; intros s l w.
  - exists []. simpl. rewrite app_nil_r.
    repeat split; [constructor | discriminate].
  - destruct (for_body_spec s l w) as (evs & Hlog & Hit & Hfile & Hty).
    simpl. unfold bind.
    destruct (for_body s l w) as [[[[|] l']|err|] w1]; simpl in *.
    + destruct (IH (s + 1) l' w1) as (rest & Hlog' & Hsc & Hfile' & Hty').
      exists (evs ++ rest). rewrite Hlog', Hlog, app_assoc.
      repeat split; [now constructor | | exact Hty'].
      now rewrite Hfile', Hfile, writes_app, file_after_app.
    + exists evs. repeat split; auto; [now constructor | discriminate].
    + exists evs. repeat split; auto; [now constructor | discriminate].
    + congruence.
Qed.

End Scan.

(** *** What the log of a scan tells *)

Lemma iteration_epochs (e : Z) (stop : bool) (evs : list Event) :
  iteration_trace e stop evs ->
  Forall (fun ev => forall e', event_epoch ev = Some e' -> e' = e) evs.
Proof.
  intros (H & _). eapply Forall_impl; [|exact H].
  intros ev [Hn|Hs] e' He; congruence.
Qed.

(** Only the epochs of the scan are examined. *)
Lemma scan_epochs (s : Z) (n : nat) (evs : list Event) :
  scan_trace s n evs ->
  Forall (fun ev => forall e, event_epoch ev = Some e ->
                              s <= e < s + Z.of_nat n) evs.
Proof.
  induction 1 as [s|s n evs Hit|s n evs rest Hit Hsc IH].
  - constructor.
  - eapply Forall_impl; [|exact (iteration_epochs _ _ _ Hit)].
    intros ev H e He. rewrite (H e He). lia.
  - apply Forall_app. split.
    + eapply Forall_impl; [|exact (iteration_epochs _ _ _ Hit)].
      intros ev H e He. rewrite (H e He). lia.
    + eapply Forall_impl; [|exact IH].
      intros ev H e He. specialize (H e He). lia.
Qed.

(** After a failure that halts the scan no later epoch is examined. *)
Lemma scan_halts (s : Z) (n : nat) (evs : list Event) :
  scan_trace s n evs ->
  forall ev e, In ev evs -> halts ev = true -> event_epoch ev = Some e ->
  Forall (fun ev' => forall e', event_epoch ev' = Some e' -> e' <= e) evs.
Proof.
  induction 1 as [s|s n evs Hit|s n evs rest Hit Hsc IH];
    intros ev e Hin Hh He.
  - destruct Hin.
  - pose proof (iteration_epochs _ _ _ Hit) as Hep.
    rewrite Forall_forall in Hep. rewrite (Hep ev Hin e He).
    apply Forall_forall. intros ev' Hin' e' He'.
    rewrite (Hep ev' Hin' e' He'). lia.
  - apply in_app_or in Hin as [Hin|Hin].
    + destruct Hit as (_ & Hstop & _). now specialize (Hstop ev Hin Hh).
    + pose proof (scan_epochs _ _ _ Hsc) as Hr.
      rewrite Forall_forall in Hr. specialize (Hr ev Hin e He).
      apply Forall_app. split.
      * eapply Forall_impl; [|exact (iteration_epochs _ _ _ Hit)].
        intros ev' H e' He'. rewrite (H e' He'). lia.
      * eapply IH; eauto.
Qed.

(** An uptime vote refused with "epoch not ended": the rewards of that epoch
    are not looked at. *)
Lemma scan_not_ended (s : Z) (n : nat) (evs : list Event) :
  scan_trace s n evs ->
  forall e h err,
    In (Called (CSignUptimeVote e h) (Some err)) evs ->
    is_epoch_not_ended err = true ->
    Forall (fun ev => is_rewards_call ev = true -> event_epoch ev <> Some e)
           evs.
Proof.
  induction 1 as [s|s n evs Hit|s n evs rest Hit Hsc IH];
    intros e h err Hin Hne.
  - destruct Hin.
  - pose proof (iteration_epochs _ _ _ Hit) as Hep.
    rewrite Forall_forall in Hep.
    pose proof (Hep _ Hin e eq_refl) as ->.
    destruct Hit as (_ & _ & Hskip & _).
    eapply Forall_impl; [|exact (Hskip h err Hin Hne)].
    intros ev H H'. congruence.
  - apply in_app_or in Hin as [Hin|Hin].
    + destruct Hit as (_ & Hstop & _).
      now specialize (Hstop _ Hin Hne).
    + pose proof (scan_epochs _ _ _ Hsc) as Hr.
      rewrite Forall_forall in Hr. specialize (Hr _ Hin e eq_refl).
      apply Forall_app. split.
      * eapply Forall_impl; [|exact (iteration_epochs _ _ _ Hit)].
        intros ev H _ He. specialize (H e He). lia.
      * eapply IH; eauto.
Qed.

(** Any other failure of the uptime vote: the rewards hash of that epoch is
    read all the same. *)
Lemma scan_generic_failure (s : Z) (n : nat) (evs : list Event) :
  scan_trace s n evs ->
  forall e h err,
    In (Called (CSignUptimeVote e h) (Some err)) evs ->
    is_epoch_not_ended err = false ->
    exists t, In (Called (CRewardsHash e) t) evs.
Proof.
  induction 1 as [s|s n evs Hit|s n evs rest Hit Hsc IH];
    intros e h err Hin Hne.
  - destruct Hin.
  - pose proof (iteration_epochs _ _ _ Hit) as Hep.
    rewrite Forall_forall in Hep.
    pose proof (Hep _ Hin e eq_refl) as ->.
    destruct Hit as (_ & _ & _ & Hgo & _). eauto.
  - apply in_app_or in Hin as [Hin|Hin].
    + pose proof (iteration_epochs _ _ _ Hit) as Hep.
      rewrite Forall_forall in Hep.
      pose proof (Hep _ Hin e eq_refl) as ->.
      destruct Hit as (_ & _ & _ & Hgo & _).
      destruct (Hgo h err Hin Hne) as [t Ht].
      exists t. apply in_or_app. now left.
    + destruct (IH e h err Hin Hne) as [t Ht].
      exists t. apply in_or_app. now right.
Qed.

Lemma completed_epochs_app (a b : list Event) :
  completed_epochs (a ++ b) = completed_epochs a ++ completed_epochs b.
Proof.
  unfold completed_epochs. now rewrite writes_app, saves_app, map_app.
Qed.





Lemma scan_no_read (s : Z) (n : nat) (evs : list Event) :
  scan_trace s n evs -> Forall (fun ev => is_read ev = false) evs.
Proof.
  induction 1 as [s|s n evs Hit|s n evs rest Hit Hsc IH].
  - constructor.
  - apply Hit.
  - apply Forall_app. split; [apply Hit | exact IH].
Qed.

Lemma scan_first (s : Z) (n : nat) (evs : list Event) :
  scan_trace s (S n) evs ->
  exists t rest,
    evs = ConsoleLog (LCheckingEpoch s) :: Called (CUptimeVoteHash s) t :: rest.
Proof.
  inversion 1 as [|s' n' evs' Hit|s' n' evs' rest Hit Hsc]; subst.
  - destruct Hit as (_ & _ & _ & _ & _ & _ & t & rest & ->). eauto.
  - destruct Hit as (_ & _ & _ & _ & _ & _ & t & rest' & ->).
    simpl. eauto.
Qed.

(** ** Loading the checkpoint *)

Section Run.

Context {C : Collaborators}.

Lemma loadState_spec (w : World C) :
  exists evs,
    fst (loadState w) = Normal (loaded_value w)
    /\ file (snd (loadState w)) = file w
    /\ log (snd (loadState w)) = log w ++ evs
    /\ Forall quiet evs
    /\ (Forall (fun ev => read_failed ev = false) evs ->
        loaded_value w = stored_value (file w))
    /\ (loaded_value w = stored_value (file w) \/
        loaded_value w = state_value default_state).
Proof.
  unfold loadState, loaded_value, stored_value, existsSync, readFileSync,
    JSON_parse, bind, try_catch, console_error, emit, ret, throw.
  destruct (file w) as [data|] eqn:Ef; simpl.
  - destruct (readFileSync_fault C (ext w)) as [[err|] x]; simpl;
      rewrite ?Ef; simpl; [|destruct (Json.parse data); simpl];
      eexists; rewrite <- ?app_assoc; simpl;
      (split; [reflexivity|]);
      (split; [first [reflexivity | symmetry; assumption]|]);
      (split; [reflexivity|]);
      (split; [quiet_list|]).
    + split; [|now right]. intros H. inversion H. discriminate.
    + split; [reflexivity | now left].
    + split; [reflexivity | now left].
  - exists []. rewrite app_nil_r.
    split; [reflexivity|]. split; [assumption|]. split; [reflexivity|].
    split; [constructor|]. split; [reflexivity | now left].
Qed.

Lemma readInputs_spec (w : World C) :
  exists evs,
    log (snd (readInputs w)) = log w ++ evs
    /\ Forall quiet evs
    /\ file (snd (readInputs w)) = file w
    /\ (forall c last, fst (readInputs w) = Normal (c, last) ->
        Forall (fun ev => read_failed ev = false) evs ->
        persisted (file w) = Normal last)
    /\ (fst (readInputs w) = IllTyped -> persisted (file w) = IllTyped).
Proof.
  unfold readInputs, bind, get_lastCompletedEpoch, ret, call.
  destruct (initializeFlareSystemsManager C (ext w)) as [[[]|e1] x1]; simpl.
  2:{ eexists. split; [reflexivity|].
      split; [quiet_list|].
      split; [reflexivity|]. split; [intros ? ? H|intros H]; discriminate H. }
  destruct (getCurrentRewardEpochId C x1) as [[c|e2] x2]; simpl.
  2:{ eexists. rewrite <- app_assoc. split; [reflexivity|].
      split; [quiet_list|].
      split; [reflexivity|]. split; [intros ? ? H|intros H]; discriminate H. }
  match goal with
  | |- context [loadState ?w2] =>
      destruct (loadState_spec w2) as (evs & Hv & Hf & Hl & Hq & Hr & Hd);
      destruct (loadState w2) as [r w3]
  end.
  simpl in *. subst r.
  destruct (field_lastCompletedEpoch _) eqn:E; simpl; rewrite Hl, Hf;
    eexists; rewrite <- !app_assoc; simpl;
    (split; [reflexivity|]);
    (split; [quiet_list|]);
    (split; [reflexivity|]); split; try discriminate; try congruence.
  - intros c' last [= <- <-] Hnf.
    inversion Hnf as [|? ? _ Hnf']. inversion Hnf' as [|? ? _ Hnf''].
    unfold persisted. rewrite <- (Hr Hnf''). exact E.
  - intros _. unfold persisted.
    destruct Hd as [Hd|Hd]; rewrite Hd in E; [exact E|].
    rewrite field_state_value in E. discriminate.
Qed.

End Run.

(** ** One run of [checkAndSign] *)

Section RunFacts.

Context {C : Collaborators}.

Lemma for_epochs_thrown (n : nat) (s l : Z) (w : World C) (e : JsError)
      (evs : list Event) :
  fst (for_epochs n s l w) = Thrown e -> scan_trace s n evs -> evs <> [].
Proof.
  destruct n as [|n]; [discriminate|].
  intros _ H. destruct (scan_first _ _ _ H) as (t & rest & ->). discriminate.
Qed.

(** A run, from what it read: the two header lines, the scan, and the line
    that closes the run. *)
Lemma checkAndSign_run (w : World C) :
  match readInputs w with
  | (Normal (current, last), w0) =>
      let s := startEpoch_of last current in
      exists scan post,
        log (snd (checkAndSign w)) =
          log w0 ++ ConsoleLog (LCheckingEpochs s current)
                 :: ConsoleLog (LLastCompletedEpoch last) :: scan ++ post
        /\ scan_trace s (Z.to_nat (current - s + 1)) scan
        /\ (post = [ConsoleLog LCheckComplete] \/
            exists e, post = [ConsoleError (LErrorInCheckAndSign e)]
                      /\ scan <> [])
        /\ file (snd (checkAndSign w)) = file_after (writes scan) (file w0)
        /\ fst (checkAndSign w) = Normal tt
  | (Thrown e, w0) =>
      checkAndSign w =
        (Normal tt,
         Build_World (ext w0) (file w0)
           (log w0 ++ [ConsoleError (LErrorInCheckAndSign e)]))
  | (IllTyped, w0) => checkAndSign w = (IllTyped, w0)
  end.
Proof.
  unfold checkAndSign, checkAndSign_try, readInputs, try_catch, bind,
    get_lastCompletedEpoch, ret, call, console_log, console_error, emit.
  destruct (initializeFlareSystemsManager C (ext w)) as [[[]|e1] x1]; simpl;
    [|reflexivity].
  destruct (getCurrentRewardEpochId C x1) as [[c|e2] x2]; simpl;
    [|reflexivity].
  match goal with
  | |- context [loadState ?w2] => destruct (loadState w2) as [[v|e|] w3]
  end; simpl; [|reflexivity|reflexivity].
  destruct (field_lastCompletedEpoch v) as [last|e|]; simpl;
    [|reflexivity|reflexivity].
  match goal with
  | |- context [for_epochs ?n ?s ?l ?w4] =>
      destruct (for_epochs_spec n s l w4) as (scan & Hlog & Hsc & Hfile & Hty);
      pose proof (for_epochs_thrown n s l w4) as Hthrown;
      destruct (for_epochs n s l w4) as [[l'|e|] w5]
  end; simpl in *; [| |congruence].
  - exists scan, [ConsoleLog LCheckComplete].
    rewrite Hlog, <- !app_assoc. simpl. auto.
  - exists scan, [ConsoleError (LErrorInCheckAndSign e)].
    rewrite Hlog, <- !app_assoc. simpl.
    split; [reflexivity|]. split; [assumption|].
    split; [right; eauto|]. auto.
Qed.


(** The events of a run, split in three: what it logs while reading its
    inputs, the scan, the closing line. *)
Lemma checkAndSign_events (w : World C) :
  exists pre scan post,
    log (snd (checkAndSign w)) = log w ++ pre ++ scan ++ post
    /\ Forall quiet pre
    /\ Forall quiet post
    /\ file (snd (checkAndSign w)) = file_after (writes scan) (file w)
    /\ (scan = [] \/
        exists current last w0,
          readInputs w = (Normal (current, last), w0)
          /\ scan_trace (startEpoch_of last current)
               (Z.to_nat (current - startEpoch_of last current + 1)) scan).
Proof.
  pose proof (checkAndSign_run w) as H.
  destruct (readInputs_spec w) as (evs & Hlog & Hq & Hfile & _).
  destruct (readInputs w) as [[[c last]|e|] w0] eqn:E; simpl in *.
  - destruct H as (scan & post & Hl & Hsc & Hpost & Hf & _).
    exists (evs ++ [ConsoleLog (LCheckingEpochs (startEpoch_of last c) c);
                    ConsoleLog (LLastCompletedEpoch last)]), scan, post.
    rewrite Hl, Hlog, <- !app_assoc. simpl.
    split; [reflexivity|].
    split; [apply Forall_app; split; [assumption|];
            quiet_list|].
    split; [destruct Hpost as [->|(e & -> & _)];
            quiet_list|].
    split; [congruence|]. right. eauto.
  - exists (evs ++ [ConsoleError (LErrorInCheckAndSign e)]), [], [].
    rewrite H. simpl. rewrite Hlog, Hfile, <- !app_assoc, !app_nil_r.
    split; [reflexivity|].
    split; [apply Forall_app; split; [assumption|];
            quiet_list|].
    split; [constructor|]. split; [reflexivity | now left].
  - exists evs, [], []. rewrite H. simpl. rewrite Hlog, Hfile, !app_nil_r.
    split; [reflexivity|]. split; [assumption|].
    split; [constructor|]. split; [reflexivity | now left].
Qed.

Lemma new_events_app (w w' : World C) (evs : list Event) :
  log w' = log w ++ evs -> new_events w w' = evs.
Proof.
  intros H. unfold new_events. rewrite H.
  rewrite skipn_app, skipn_all, Nat.sub_diag. reflexivity.
Qed.

End RunFacts.

(** ** Substring test *)

Lemma startsWith_spec (needle hay : jsstring) :
  startsWith needle hay = true <-> exists post, hay = needle ++ post.
Proof.
  revert hay. induction needle as [|x needle IH]; intros hay; simpl.
  - split; [eauto | reflexivity].
  - destruct hay as [|y hay].
    + split; [discriminate | intros [post H]; discriminate].
    + rewrite andb_true_iff, N.eqb_eq, IH. split.
      * intros [-> [post ->]]. eauto.
      * intros [post [= -> ->]]. eauto.
Qed.

(** [includes needle hay] holds exactly when [needle] is a substring of
    [hay]. *)
Lemma includes_spec (needle hay : jsstring) :
  includes needle hay = true <->
  exists pre post, hay = pre ++ needle ++ post.
Proof.
  induction hay as [|y hay IH].
  - simpl. rewrite orb_false_r, startsWith_spec. split.
    + intros [post H]. exists [], post. exact H.
    + intros (pre & post & H). destruct pre; [eauto|discriminate].
  - simpl. rewrite orb_true_iff, startsWith_spec, IH. split.
    + intros [[post H]|(pre & post & H)].
      * exists [], post. exact H.
      * exists (y :: pre), post. simpl. now rewrite H.
    + intros (pre & post & H). destruct pre as [|z pre].
      * left. eauto.
      * right. injection H as _ H. eauto.
Qed.

(** ** Lists of checkpoints *)

Lemma last_of_app_single (l : list Z) (k : Z) : last_of (l ++ [k]) = Some k.
Proof. unfold last_of. now rewrite rev_app_distr. Qed.

Lemma last_of_cons (k : Z) (l : list Z) :
  last_of (k :: l) =
    match last_of l with Some k' => Some k' | None => Some k end.
Proof.
  unfold last_of. simpl. destruct (rev l); reflexivity.
Qed.











Lemma quiet_no_epoch (P : Z -> Prop) (evs : list Event) :
  Forall quiet evs ->
  Forall (fun ev => forall e, event_epoch ev = Some e -> P e) evs.
Proof.
  intros H. eapply Forall_impl; [|exact H].
  intros ev [Hq _] e He. congruence.
Qed.

Lemma quiet_not_in (evs : list Event) (ev : Event) (e : Z) :
  Forall quiet evs -> event_epoch ev = Some e -> ~ In ev evs.
Proof.
  intros H He Hin. rewrite Forall_forall in H.
  destruct (H ev Hin) as [Hq _]. congruence.
Qed.

Lemma completed_quiet (evs : list Event) :
  Forall quiet evs -> completed_epochs evs = [].
Proof.
  intros H. unfold completed_epochs. now rewrite (writes_quiet _ H).
Qed.

(** ** Runs that find nothing to do *)

Section CaughtUp.

Context {C : Collaborators}.

(** A run from what it read, down to the loop. *)
Lemma checkAndSign_from_inputs (w w0 : World C) (current last : Z) :
  readInputs w = (Normal (current, last), w0) ->
  checkAndSign w =
    let s := startEpoch_of last current in
    let w1 :=
      Build_World (ext w0) (file w0)
        (log w0 ++ [ConsoleLog (LCheckingEpochs s current);
                    ConsoleLog (LLastCompletedEpoch last)]) in
    match for_epochs (Z.to_nat (current - s + 1)) s last w1 with
    | (Normal _, w2) =>
        (Normal tt,
         Build_World (ext w2) (file w2) (log w2 ++ [ConsoleLog LCheckComplete]))
    | (Thrown e, w2) =>
        (Normal tt,
         Build_World (ext w2) (file w2)
           (log w2 ++ [ConsoleError (LErrorInCheckAndSign e)]))
    | (IllTyped, w2) => (IllTyped, w2)
    end.
Proof.
  unfold checkAndSign, checkAndSign_try, readInputs, try_catch, bind,
    get_lastCompletedEpoch, ret, call, console_log, console_error, emit.
  destruct (initializeFlareSystemsManager C (ext w)) as [[[]|e1] x1]; simpl;
    [|discriminate].
  destruct (getCurrentRewardEpochId C x1) as [[c|e2] x2]; simpl;
    [|discriminate].
  match goal with
  | |- context [loadState ?w2] => destruct (loadState w2) as [[v|e|] w3]
  end; simpl; [|discriminate|discriminate].
  destruct (field_lastCompletedEpoch v) as [l|e|]; simpl;
    [|discriminate|discriminate].
  intros [= -> -> ->]. rewrite <- app_assoc. simpl.
  destruct (for_epochs _ _ _ _) as [[l'|e|] w5]; reflexivity.
Qed.

Lemma startEpoch_caught_up (last current : Z) :
  last + 1 > current ->
  Z.to_nat (current - startEpoch_of last current + 1) = O.
Proof. unfold startEpoch_of. lia. Qed.

(** A run that loads a checkpoint at or beyond the current epoch does
    nothing but log three lines. *)
Lemma checkAndSign_caught_up (w w0 : World C) (current last : Z) :
  readInputs w = (Normal (current, last), w0) ->
  last + 1 > current ->
  checkAndSign w =
    (Normal tt,
     Build_World (ext w0) (file w0)
       (log w0 ++ [ConsoleLog (LCheckingEpochs (startEpoch_of last current)
                                                current);
                   ConsoleLog (LLastCompletedEpoch last);
                   ConsoleLog LCheckComplete])).
Proof.
  intros Hin Hgt. rewrite (checkAndSign_from_inputs _ _ _ _ Hin).
  cbv zeta. rewrite (startEpoch_caught_up _ _ Hgt). simpl.
  rewrite <- app_assoc. reflexivity.
Qed.

End CaughtUp.

(** ** The scenarios of the specification, run *)

(** Scenario A: no checkpoint, current epoch 0, both hashes empty and both
    submissions accepted: the checkpoint becomes 0. *)
Example scenario_A :
  let w := Scripted.world Scenario.nothing_signed None in
  let w' := snd (checkAndSign w) in
  List.filter is_submission (new_events w w') =
    [Called (CSignUptimeVote 0 (js "0xfa4e")) None;
     Called (CSignRewards 0 (js "0x4e7a") 5) None]
  /\ file w' = Some (checkpoint_text 0)
  /\ persisted (file w') = Normal 0.
Proof. vm_compute. auto. Qed.

(** Scenario C: checkpoint 0, current epoch 3, the uptime vote of epoch 1
    refused with "epoch not ended": the scan stops at epoch 1 and the
    checkpoint stays 0. *)
Example scenario_C :
  let w := Scripted.world Scenario.epoch_not_ended (Some (checkpoint_text 0)) in
  let w' := snd (checkAndSign w) in
  List.filter about_epoch (new_events w w') =
    [Called (CUptimeVoteHash 1) None;
     Called (CSignUptimeVote 1 (js "0xfa4e")) (Some Scenario.not_ended_error)]
  /\ file w' = file w
  /\ persisted (file w') = Normal 0.
Proof. vm_compute. auto. Qed.

(** Scenario D: no checkpoint file: [loadState] returns the default state
    and logs nothing. *)
Example scenario_D :
  let w := Scripted.world (Scenario.settled 0) None in
  loadState w = (Normal (state_value default_state), w).
Proof. reflexivity. Qed.

(** Scenario E: checkpoint 1, current epoch 2, the uptime vote of epoch 2
    present, the rewards data of epoch 2 not fetchable: the scan stops and
    the checkpoint is unchanged. *)
Example scenario_E :
  let w := Scripted.world Scenario.rewards_unavailable
             (Some (checkpoint_text 1)) in
  let w' := snd (checkAndSign w) in
  List.filter about_epoch (new_events w w') =
    [Called (CUptimeVoteHash 2) None;
     Called (CRewardsHash 2) None;
     Called (CGetRewardsData 2) (Some Scenario.fetch_error)]
  /\ file w' = file w
  /\ persisted (file w') = Normal 1.
Proof. vm_compute. auto. Qed.

(** * The claims *)

(** C1.  The scan of a run starts at [max (last + 1) (current - 4)], where
    [last] is the checkpoint the run loads and [current] the reward epoch it
    reads from the contract: the run logs that start, examines only epochs
    from it to [current], the first of them being the start itself; and when
    [last + 1 > current] the body of the loop runs zero times: the run ends
    in the world it had after reading its inputs, with three more lines on
    the console and no call at all (no hash read, no submission). *)
Theorem checkAndSign_start_epoch {C : Collaborators} (w w0 : World C)
        (current last : Z) :
  readInputs w = (Normal (current, last), w0) ->
  let start := Z.max (last + 1) (current - 4) in
  (exists scan post,
      log (snd (checkAndSign w)) =
        log w0 ++ ConsoleLog (LCheckingEpochs start current)
               :: ConsoleLog (LLastCompletedEpoch last) :: scan ++ post
      /\ Forall quiet post
      /\ Forall (fun ev => forall e, event_epoch ev = Some e ->
                                     start <= e <= current) scan
      /\ (start <= current ->
          exists t rest,
            scan = ConsoleLog (LCheckingEpoch start)
                   :: Called (CUptimeVoteHash start) t :: rest))
  /\ (last + 1 > current ->
      checkAndSign w =
        (Normal tt,
         Build_World (ext w0) (file w0)
           (log w0 ++ [ConsoleLog (LCheckingEpochs start current);
                       ConsoleLog (LLastCompletedEpoch last);
                       ConsoleLog LCheckComplete]))).
Proof.
  intros Hin start. split.
  - pose proof (checkAndSign_run w) as H. rewrite Hin in H.
    destruct H as (scan & post & Hl & Hsc & Hpost & _).
    exists scan, post. split; [exact Hl|].
    split; [destruct Hpost as [->|(e & -> & _)];
            quiet_list|].
    split.
    + eapply Forall_impl; [|exact (scan_epochs _ _ _ Hsc)].
      intros ev H e He. specialize (H e He).
      unfold startEpoch_of in H. fold start in H. lia.
    + intros Hle. unfold startEpoch_of in Hsc. fold start in Hsc.
      destruct (Z.to_nat (current - start + 1)) as [|n] eqn:En; [lia|].
      exact (scan_first _ _ _ Hsc).
  - intros Hgt. exact (checkAndSign_caught_up _ _ _ _ Hin Hgt).
Qed.

Lemma checkAndSign_start_epoch_witness :
  let w := Scripted.world (Scenario.settled 2) (Some (checkpoint_text 2)) in
  let w0 := snd (readInputs w) in
  checkAndSign w =
    (Normal tt,
     Build_World (ext w0) (file w0)
       (log w0 ++ [ConsoleLog (LCheckingEpochs (Z.max (2 + 1) (2 - 4)) 2);
                   ConsoleLog (LLastCompletedEpoch 2);
                   ConsoleLog LCheckComplete])).
Proof.
  intros w w0.
  assert (H : readInputs w = (Normal (2, 2), w0))
    by (vm_compute; reflexivity).
  apply (proj2 (checkAndSign_start_epoch w w0 2 2 H)). lia.
Defined.

(** C2.  In every run, when the submission of the uptime vote of an epoch
    [e] throws an error whose [reason] or [message] contains "epoch not
    ended", no rewards call (hash read, data fetch, submission) is made for
    [e] and no epoch greater than [e] is examined in that run; when the error
    matches neither field, the run goes on to read the rewards hash of that
    same epoch [e]. *)
Theorem uptime_vote_failure {C : Collaborators} (w : World C)
        (e : Z) (h : jsstring) (err : JsError) :
  let evs := new_events w (snd (checkAndSign w)) in
  In (Called (CSignUptimeVote e h) (Some err)) evs ->
  if is_epoch_not_ended err then
    Forall (fun ev => is_rewards_call ev = true -> event_epoch ev <> Some e) evs
    /\ Forall (fun ev => forall e', event_epoch ev = Some e' -> e' <= e) evs
  else
    exists thrown, In (Called (CRewardsHash e) thrown) evs.
Proof.
  intros evs Hin. subst evs.
  destruct (checkAndSign_events w) as (pre & scan & post & Hl & Hpre & Hpost
                                       & _ & Hsc).
  rewrite (new_events_app _ _ _ Hl) in *.
  assert (Hscan : In (Called (CSignUptimeVote e h) (Some err)) scan).
  { apply in_app_or in Hin as [Hin|Hin];
      [now apply (quiet_not_in _ _ e Hpre) in Hin|].
    apply in_app_or in Hin as [Hin|Hin]; [assumption|].
    now apply (quiet_not_in _ _ e Hpost) in Hin. }
  destruct Hsc as [->|(c & last & w0 & _ & Hsc)]; [destruct Hscan|].
  destruct (is_epoch_not_ended err) eqn:Hne.
  - split.
    + rewrite !Forall_app. repeat split.
      * eapply Forall_impl; [|exact Hpre]. intros ev [Hq _] _. congruence.
      * exact (scan_not_ended _ _ _ Hsc e h err Hscan Hne).
      * eapply Forall_impl; [|exact Hpost]. intros ev [Hq _] _. congruence.
    + rewrite !Forall_app. repeat split.
      * now apply quiet_no_epoch.
      * exact (scan_halts _ _ _ Hsc _ e Hscan Hne eq_refl).
      * now apply quiet_no_epoch.
  - destruct (scan_generic_failure _ _ _ Hsc e h err Hscan Hne) as [t Ht].
    exists t. apply in_or_app. right. apply in_or_app. now left.
Qed.

Lemma uptime_vote_failure_witness :
  let w := Scripted.world Scenario.epoch_not_ended (Some (checkpoint_text 0)) in
  let evs := new_events w (snd (checkAndSign w)) in
  Forall (fun ev => is_rewards_call ev = true -> event_epoch ev <> Some 1) evs
  /\ Forall (fun ev => forall e', event_epoch ev = Some e' -> e' <= 1) evs.
Proof.
  intros w evs.
  apply (uptime_vote_failure w 1 (js "0xfa4e") Scenario.not_ended_error).
  vm_compute. tauto.
Defined.



(** C7, as the code has it.  When the checkpoint a run loads is 2 and the
    current reward epoch is 2, whatever the hashes of epoch 2, the run
    attempts no submission, examines no epoch and does not write the
    checkpoint file: it ends in the world it had after reading its inputs,
    with three more lines on the console; the file, hence the checkpoint, is
    the one the run found. *)
Theorem caught_up_run_writes_nothing {C : Collaborators} (w w0 : World C) :
  readInputs w = (Normal (2, 2), w0) ->
  checkAndSign w =
    (Normal tt,
     Build_World (ext w0) (file w0)
       (log w0 ++ [ConsoleLog (LCheckingEpochs 3 2);
                   ConsoleLog (LLastCompletedEpoch 2);
                   ConsoleLog LCheckComplete]))
  /\ file (snd (checkAndSign w)) = file w.
Proof.
  intros Hin.
  assert (H : checkAndSign w =
    (Normal tt,
     Build_World (ext w0) (file w0)
       (log w0 ++ [ConsoleLog (LCheckingEpochs 3 2);
                   ConsoleLog (LLastCompletedEpoch 2);
                   ConsoleLog LCheckComplete]))).
  { apply (checkAndSign_caught_up _ _ _ _ Hin). lia. }
  split; [exact H|]. rewrite H. simpl.
  destruct (readInputs_spec w) as (_ & _ & _ & Hf & _).
  now rewrite Hin in Hf.
Qed.

Lemma caught_up_run_writes_nothing_witness :
  let w := Scripted.world (Scenario.settled 2) (Some (checkpoint_text 2)) in
  file (snd (checkAndSign w)) = file w.
Proof.
  intros w.
  assert (H : readInputs w = (Normal (2, 2), snd (readInputs w)))
    by (vm_compute; reflexivity).
  exact (proj2 (caught_up_run_writes_nothing w (snd (readInputs w)) H)).
Defined.

(** C7, as stated, fails in Scenario B: the checkpoint is 2, the current
    epoch is 2, both hashes of epoch 2 are present, and the run never writes
    the checkpoint file (so the checkpoint is not saved again). *)
Lemma scenario_B_no_save :
  let w := Scripted.world (Scenario.settled 2) (Some (checkpoint_text 2)) in
  let evs := new_events w (snd (checkAndSign w)) in
  persisted (file w) = Normal 2
  /\ isHash (C := Scripted.collaborators (Scenario.settled 2))
            (Scripted.uptime (Scenario.settled 2) 2) = true
  /\ isHash (C := Scripted.collaborators (Scenario.settled 2))
            (Scripted.rewards (Scenario.settled 2) 2) = true
  /\ ~ (exists data thrown, In (Called (CWriteFileSync data) thrown) evs).
Proof.
  intros w evs. repeat split; try reflexivity.
  intros (data & thrown & H). vm_compute in H.
  intuition discriminate.
Qed.


(** ** Saves *)









(** C5, as the code has it.  [loadState] never throws, and leaves the file
    as it is: it returns the default state when the file is missing, when
    the disk refuses the read, and when the content is not JSON text;
    otherwise it returns whatever value the JSON text denotes, state or not
    ([loaded_value]). *)
Theorem loadState_returns {C : Collaborators} (w : World C) :
  fst (loadState w) = Normal (loaded_value w)
  /\ file (snd (loadState w)) = file w.
Proof.
  destruct (loadState_spec w) as (evs & Hv & Hf & _). auto.
Qed.

(** C5, as stated, fails on the file [{}]: it is JSON text that encodes no
    state with an integer [lastCompletedEpoch], and [loadState] returns the
    empty object, not the default state. *)
Lemma loadState_wrong_shape :
  let w := Scripted.world (Scenario.settled 0) (Some (js "{}")) in
  checkpoint_of_text (js "{}") = None
  /\ fst (loadState w) = Normal (Json.JObj [])
  /\ Json.JObj [] <> state_value default_state.
Proof.
  intros w. repeat split; try reflexivity. discriminate.
Qed.

(** ** Successive runs *)




Section Runs.

Context {C : Collaborators}.

Lemma runWithRetry_normal (w : World C) :
  fst (checkAndSign w) = Normal tt ->
  runWithRetry w =
    (Normal tt,
     Build_World (ext (snd (checkAndSign w))) (file (snd (checkAndSign w)))
       (log (snd (checkAndSign w)) ++ [Called CCheckAndSign None])).
Proof.
  unfold runWithRetry, runWithRetry_of.
  change (Z.to_nat MAX_RETRIES) with 3%nat.
  cbn [while_retries]. change (0 <? MAX_RETRIES) with true. cbv iota.
  unfold bind, try_catch, invoke, ret.
  destruct (checkAndSign w) as [[[]|e|] w']; simpl; intros H;
    [reflexivity | discriminate | discriminate].
Qed.





End Runs.




(** ** The retry wrapper *)

Section Retry.

Context {C : Collaborators}.






End Retry.



(** C10.  The checkpoint does not certify every epoch below it.  In the run
    exhibited here the uptime vote of epoch 0 is missing and its submission
    fails with an error that does not say "epoch not ended", while the
    rewards hash of epoch 0 is present: the scan goes on to epoch 1, finds it
    fully completed and saves the checkpoint 1.  Epoch 0 was not found
    fully completed and its uptime vote is still unsigned, yet the runs that
    follow start after the checkpoint and never examine epoch 0 again. *)
Theorem checkpoint_skips_unsigned_uptime_vote :
  exists (s : Scripted.Script) (e e' : Z) (h : jsstring) (err : JsError),
    let w := Scripted.world s None in
    let w1 := snd (checkAndSign w) in
    let evs := new_events w w1 in
    e < e'
    /\ In (Called (CSignUptimeVote e h) (Some err)) evs
    /\ is_epoch_not_ended err = false
    /\ isHash (C := Scripted.collaborators s) (Scripted.uptime s e) = false
    /\ isHash (C := Scripted.collaborators s) (Scripted.rewards s e) = true
    /\ In (Called (CUptimeVoteHash (e + 1)) None) evs
    /\ ~ In e (completed_epochs evs)
    /\ In e' (saved_epochs evs)
    /\ persisted (file w1) = Normal e'
    /\ Forall (fun ev => event_epoch ev <> Some e)
              (new_events w1 (snd (runs 3 w1))).
Proof.
  exists Scenario.uptime_vote_rejected, 0, 1, (js "0xfa4e"),
    Scenario.nonce_error.
  cbv zeta.
  split; [lia|].
  split; [vm_compute; tauto|].
  split; [vm_compute; reflexivity|].
  split; [vm_compute; reflexivity|].
  split; [vm_compute; reflexivity|].
  split; [vm_compute; tauto|].
  split; [vm_compute; intuition discriminate|].
  split; [vm_compute; tauto|].
  split; [vm_compute; reflexivity|].
  vm_compute. repeat (apply Forall_cons; [discriminate|]). apply Forall_nil.
Qed.

(** * Further properties of the module *)

(** ** The calls of a scan *)

Section ScanCalls.

Context {C : Collaborators}.

Lemma for_body_calls (e l : Z) (w : World C) :
  exists evs,
    log (snd (for_body e l w)) = log w ++ evs
    /\ iteration_calls e (fst (for_body e l w)) evs.
Proof.
  unfold for_body, saveState, writeFileSync, bind, try_catch, call,
    console_log, console_error, emit, ret.
  simpl. repeat split_path.
  all: repeat rewrite <- app_assoc; simpl.
  all: eexists; split; [reflexivity|].
  all: unfold iteration_calls.
  all: split; [simpl; rewrite ?Z.eqb_refl; reflexivity|].
  all: split; [intros []; simpl; auto|].
  all: split;
    [repeat (apply Forall_cons; [simpl; intros; congruence|]);
     apply Forall_nil|].
  all: split; [simpl; first [left; reflexivity | right; eexists; reflexivity]|].
  all: split;
    [first [intros H; exfalso; apply H; reflexivity
           | intros _; split;
             [repeat (apply Forall_cons; [simpl; auto|]); apply Forall_nil|];
             split; pick_member]|].
  all: split;
    [intros err' H;
     first [discriminate H
           | injection H as <-; eexists; split; reflexivity]|].
  all: split;
    [intros ev err' Hin Hu; simpl in Hin;
     intuition (subst; simpl in *; first [congruence | reflexivity])|].
  all: split;
    [first [simpl; discriminate
           | intros _; split; [reflexivity|];
             apply (proj1 (Exists_exists
                      (fun ev => halts ev = true \/ uncaught_error ev <> None)
                      _));
             repeat first [apply Exists_cons_hd;
                           solve [first [left; assumption
                                        | left; reflexivity
                                        | right; simpl; discriminate]]
                          | apply Exists_cons_tl]]|].
  all: split; [forall_refl|].
  all: split; [simpl; intuition|].
  all: split;
    [simpl; repeat split; intros H; first [discriminate H | reflexivity]
    | discriminate].
Qed.

Lemma for_epochs_run (n : nat) :
  forall (s l : Z) (w : World C),
  exists evs,
    log (snd (for_epochs n s l w)) = log w ++ evs
    /\ scan_run s n (fst (for_epochs n s l w)) evs.
Proof.
  induction n as [|n IH]; intros s l w.
  - exists []. simpl. rewrite app_nil_r. split; [reflexivity | constructor].
  - destruct (for_body_calls s l w) as (evs & Hlog & Hit).
    simpl. unfold bind.
    destruct (for_body s l w) as [[[[|] l']|err|] w1]; simpl in *.
    + destruct (IH (s + 1) l' w1) as (rest & Hlog' & Hsc).
      exists (evs ++ rest). rewrite Hlog', Hlog, app_assoc.
      split; [reflexivity|]. now apply scan_run_next with (l := l').
    + exists evs. split; [assumption|].
      now apply (scan_run_stop s n (Normal (Break, l'))).
    + exists evs. split; [assumption|].
      now apply (scan_run_stop s n (Thrown err)).
    + exists evs. split; [assumption|].
      now apply (scan_run_stop s n IllTyped).
Qed.


Lemma loop_never_ill_typed (s : Z) (n : nat) (r : Outcome Z)
      (evs : list Event) :
  scan_run s n r evs -> r <> IllTyped.
Proof.
  induction 1 as [s l|s n r evs Hit Hst|s n l evs r' rest Hit Hsc IH];
    [discriminate| |assumption].
  destruct Hit as (_ & _ & _ & _ & _ & _ & _ & _ & _ & _ & _ & Ht).
  destruct r as [[c l]|e|]; simpl; congruence.
Qed.

End ScanCalls.

Lemma epochs_of_app (k : EpochCall) (a b : list Event) :
  epochs_of k (a ++ b) = epochs_of k a ++ epochs_of k b.
Proof.
  induction a as [|ev a IH]; [reflexivity|]. simpl.
  destruct (call_kind ev) as [k'|], (event_epoch ev) as [e|];
    try destruct (EpochCall_eqb k k'); simpl; rewrite IH; reflexivity.
Qed.

Lemma epochs_of_quiet (k : EpochCall) (evs : list Event) :
  Forall quiet evs -> epochs_of k evs = [].
Proof.
  induction 1 as [|ev evs [He _] _ IH]; [reflexivity|].
  simpl. rewrite He. destruct (call_kind ev); assumption.
Qed.

Lemma epochs_of_In (k : EpochCall) (e : Z) (evs : list Event) :
  In e (epochs_of k evs) <->
  exists ev, In ev evs /\ call_kind ev = Some k /\ event_epoch ev = Some e.
Proof.
  induction evs as [|ev evs IH]; simpl.
  - split; [intros [] | intros (ev & [] & _)].
  - split.
    + destruct (call_kind ev) as [k'|] eqn:Ek, (event_epoch ev) as [e'|] eqn:Ee;
        try (intros H; apply IH in H; destruct H as (ev' & Hin & H);
             exists ev'; split; [now right | exact H]).
      destruct (EpochCall_eqb k k') eqn:Eb.
      * intros [<-|H].
        -- exists ev. split; [now left|]. split; [|assumption].
           rewrite Ek. destruct k, k'; try discriminate; reflexivity.
        -- apply IH in H. destruct H as (ev' & Hin & H).
           exists ev'. split; [now right | exact H].
      * intros H. apply IH in H. destruct H as (ev' & Hin & H).
        exists ev'. split; [now right | exact H].
    + intros (ev' & [<-|Hin] & Hk & He).
      * rewrite Hk, He. destruct k; simpl; now left.
      * assert (H : In e (epochs_of k evs)) by (apply IH; eauto).
        destruct (call_kind ev) as [k'|], (event_epoch ev) as [e'|];
          try assumption.
        destruct (EpochCall_eqb k k'); [now right | assumption].
Qed.

Lemma last_event_app (a b : list Event) (ev : Event) :
  last_event b = Some ev -> last_event (a ++ b) = Some ev.
Proof.
  unfold last_event. rewrite rev_app_distr.
  destruct (rev b); simpl; [discriminate | trivial].
Qed.

Lemma last_event_In (evs : list Event) (ev : Event) :
  last_event evs = Some ev -> In ev evs.
Proof.
  unfold last_event. intros H. apply in_rev.
  destruct (rev evs); [discriminate|]. injection H as ->. now left.
Qed.

Lemma iteration_completed (e : Z) (r : Outcome (LoopCtl * Z))
      (evs : list Event) :
  iteration_calls e r evs ->
  completed_epochs evs = []
  \/ (completed_epochs evs = [e] /\ writes evs <> []).
Proof.
  intros (_ & _ & _ & [Hw|[ok Hw]] & _); unfold completed_epochs; rewrite Hw.
  - now left.
  - right. simpl. rewrite checkpoint_of_text_checkpoint_text.
    split; [reflexivity | discriminate].
Qed.

(** The epochs a scan examines: consecutive from the first, and all of them
    unless a call stopped the loop. *)
Lemma scan_run_examined (s : Z) (n : nat) (r : Outcome Z) (evs : list Event) :
  scan_run s n r evs ->
  exists m,
    (m <= n)%nat
    /\ epochs_of KUptimeVoteHash evs = epochs_from s m
    /\ (m = n \/
        exists ev, In ev evs
                   /\ (halts ev = true \/ uncaught_error ev <> None)).
Proof.
  induction 1 as [s l|s n r evs Hit Hst|s n l evs r' rest Hit Hsc IH].
  - exists O. split; [lia|]. split; [reflexivity | now left].
  - destruct Hit as (H1 & _ & _ & _ & _ & _ & _ & H8 & _).
    exists 1%nat. split; [lia|]. split; [exact H1|].
    right. apply (H8 Hst).
  - destruct Hit as (H1 & _).
    destruct IH as (m & Hm & He & Hc).
    exists (S m). split; [lia|]. rewrite epochs_of_app, H1, He.
    split; [reflexivity|].
    destruct Hc as [->|(ev & Hin & Hc)]; [now left|].
    right. exists ev. split; [apply in_or_app; now right | exact Hc].
Qed.

(** Every call of a scan is about an epoch of its range. *)
Lemma scan_run_range (s : Z) (n : nat) (r : Outcome Z) (evs : list Event) :
  scan_run s n r evs ->
  Forall (fun ev => forall e, event_epoch ev = Some e ->
                              s <= e < s + Z.of_nat n) evs.
Proof.
  induction 1 as [s l|s n r evs Hit Hst|s n l evs r' rest Hit Hsc IH].
  - constructor.
  - destruct Hit as (_ & _ & H3 & _).
    eapply Forall_impl; [|exact H3]. simpl. intros ev H e He.
    rewrite (H e He). lia.
  - destruct Hit as (_ & _ & H3 & _).
    apply Forall_app. split.
    + eapply Forall_impl; [|exact H3]. simpl. intros ev H e He.
      rewrite (H e He). lia.
    + eapply Forall_impl; [|exact IH]. simpl. intros ev H e He.
      specialize (H e He). lia.
Qed.

(** For each kind of call, the epochs called: increasing, in the range of
    the scan, at most one for each turn of the loop. *)
Lemma scan_run_sorted (k : EpochCall) (s : Z) (n : nat) (r : Outcome Z)
      (evs : list Event) :
  scan_run s n r evs ->
  StronglySorted Z.lt (epochs_of k evs)
  /\ Forall (fun e => s <= e < s + Z.of_nat n) (epochs_of k evs)
  /\ (List.length (epochs_of k evs) <= n)%nat.
Proof.
  induction 1 as [s l|s n r evs Hit Hst|s n l evs r' rest Hit Hsc IH].
  - simpl. repeat split; [constructor | constructor | lia].
  - destruct Hit as (_ & H2 & _).
    destruct (H2 k) as [->| ->]; simpl.
    + repeat split; [constructor | constructor | lia].
    + repeat split; try lia; repeat constructor; lia.
  - destruct Hit as (_ & H2 & _).
    destruct IH as (Hs & Hr & Hl).
    rewrite epochs_of_app.
    destruct (H2 k) as [->| ->]; simpl.
    + split; [exact Hs|]. split; [|lia].
      eapply Forall_impl; [|exact Hr]. simpl. lia.
    + split; [|split; [|lia]].
      * constructor; [exact Hs|].
        eapply Forall_impl; [|exact Hr]. simpl. lia.
      * constructor; [lia|].
        eapply Forall_impl; [|exact Hr]. simpl. lia.
Qed.

Lemma scan_run_completed_range (s : Z) (n : nat) (r : Outcome Z)
      (evs : list Event) :
  scan_run s n r evs ->
  Forall (fun k => s <= k < s + Z.of_nat n) (completed_epochs evs).
Proof.
  induction 1 as [s l|s n r evs Hit Hst|s n l evs r' rest Hit Hsc IH].
  - constructor.
  - destruct (iteration_completed _ _ _ Hit) as [->|[-> _]];
      repeat constructor; lia.
  - rewrite completed_epochs_app. apply Forall_app. split.
    + destruct (iteration_completed _ _ _ Hit) as [->|[-> _]];
        repeat constructor; lia.
    + eapply Forall_impl; [|exact IH]. simpl. lia.
Qed.

(** A turn that saves its epoch read both hashes of the epoch, and no call
    about the epoch threw. *)
Lemma iteration_saved (e : Z) (r : Outcome (LoopCtl * Z)) (evs : list Event) :
  iteration_calls e r evs -> writes evs <> [] ->
  In (Called (CUptimeVoteHash e) None) evs
  /\ In (Called (CRewardsHash e) None) evs
  /\ Forall (fun ev => event_epoch ev = Some e -> thrown_by ev = None) evs.
Proof.
  intros (_ & _ & _ & _ & H5 & _) Hw.
  destruct (H5 Hw) as (Hf & Hu & Hr).
  split; [exact Hu|]. split; [exact Hr|].
  eapply Forall_impl; [|exact Hf]. simpl.
  intros ev [H|H] He; [exact H|].
  destruct ev as [[] t| |]; simpl in *; discriminate.
Qed.

Lemma scan_run_saved (s : Z) (n : nat) (r : Outcome Z) (evs : list Event)
      (k : Z) :
  scan_run s n r evs -> In k (completed_epochs evs) ->
  In (Called (CUptimeVoteHash k) None) evs
  /\ In (Called (CRewardsHash k) None) evs
  /\ Forall (fun ev => event_epoch ev = Some k -> thrown_by ev = None) evs.
Proof.
  induction 1 as [s l|s n r evs Hit Hst|s n l evs r' rest Hit Hsc IH].
  - intros [].
  - destruct (iteration_completed _ _ _ Hit) as [->|[-> Hw]];
      [intros []|]. intros [<-|[]]. now apply (iteration_saved s r).
  - rewrite completed_epochs_app. intros Hin.
    apply in_app_or in Hin. destruct Hin as [Hin|Hin].
    + destruct (iteration_completed _ _ _ Hit) as [E|[E Hw]];
        rewrite E in Hin; [destruct Hin|]. destruct Hin as [<-|[]].
      destruct (iteration_saved _ _ _ Hit Hw) as (Hu & Hr & Hf).
      split; [apply in_or_app; now left|].
      split; [apply in_or_app; now left|].
      apply Forall_app. split; [exact Hf|].
      eapply Forall_impl; [|exact (scan_run_range _ _ _ _ Hsc)]. simpl.
      intros ev H He. specialize (H _ He). lia.
    + destruct (IH Hin) as (Hu & Hr & Hf).
      split; [apply in_or_app; now right|].
      split; [apply in_or_app; now right|].
      apply Forall_app. split; [|exact Hf].
      pose proof (scan_run_completed_range _ _ _ _ Hsc) as Hrange.
      rewrite Forall_forall in Hrange. specialize (Hrange _ Hin).
      destruct Hit as (_ & _ & H3 & _).
      eapply Forall_impl; [|exact H3]. simpl.
      intros ev H He. specialize (H _ He). lia.
Qed.

(** A hash read that throws ends the scan: the loop throws the same error
    and the failed read is its last event. *)
Lemma scan_run_abort (s : Z) (n : nat) (r : Outcome Z) (evs : list Event) :
  scan_run s n r evs ->
  (forall err, r = Thrown err ->
     exists ev, last_event evs = Some ev /\ uncaught_error ev = Some err)
  /\ (forall ev err, In ev evs -> uncaught_error ev = Some err ->
      r = Thrown err /\ last_event evs = Some ev).
Proof.
  induction 1 as [s l|s n r evs Hit Hst|s n l evs r' rest Hit Hsc IH].
  - split; [discriminate | intros ev err []].
  - destruct Hit as (_ & _ & _ & _ & _ & H6 & H7 & _).
    split.
    + intros err Hr. apply H6.
      destruct r as [[c l]|e|]; simpl in Hr; congruence.
    + intros ev err Hin Hu. destruct (H7 ev err Hin Hu) as [-> Hl].
      split; [reflexivity | exact Hl].
  - destruct Hit as (_ & _ & _ & _ & _ & _ & H7 & _).
    destruct IH as [IH1 IH2]. split.
    + intros err Hr. destruct (IH1 err Hr) as (ev & Hl & Hu).
      exists ev. split; [now apply last_event_app | exact Hu].
    + intros ev err Hin Hu. apply in_app_or in Hin.
      destruct Hin as [Hin|Hin].
      * destruct (H7 ev err Hin Hu) as [Hr _]. discriminate Hr.
      * destruct (IH2 ev err Hin Hu) as [Hr Hl].
        split; [exact Hr | now apply last_event_app].
Qed.

Lemma scan_run_wrapper (s : Z) (n : nat) (r : Outcome Z) (evs : list Event) :
  scan_run s n r evs -> Forall (fun ev => is_wrapper_event ev = false) evs.
Proof.
  induction 1 as [s l|s n r evs Hit Hst|s n l evs r' rest Hit Hsc IH].
  - constructor.
  - apply Hit.
  - apply Forall_app. split; [apply Hit | exact IH].
Qed.

(** ** The scan and the answers of the collaborators *)

Section ScanHandlers.

Context {C : Collaborators}.

Lemma for_body_handlers (e l : Z) (w : World C) :
  exists evs,
    log (snd (for_body e l w)) = log w ++ evs
    /\ Forall (payload_fetched C) evs
    /\ (uptime_vote_signed C e -> epochs_of KSignUptimeVote evs = [])
    /\ (rewards_signed C e ->
        epochs_of KGetRewardsData evs = [] /\ epochs_of KSignRewards evs = [])
    /\ (never_fails C ->
        fst (for_body e l w) = Normal (Continue, e)
        /\ writes evs = [(checkpoint_text e, true)]).
Proof.
  unfold for_body, saveState, writeFileSync, bind, try_catch, call,
    console_log, console_error, emit, ret.
  simpl. repeat split_path.
  all: repeat rewrite <- app_assoc; simpl.
  all: eexists; split; [reflexivity|].
  all: split;
    [repeat (apply Forall_cons;
             [simpl; first [exact I | do 2 eexists; eassumption]|]);
     apply Forall_nil|].
  all: split;
    [intros Hs;
     first [reflexivity
           | exfalso;
             match goal with
             | Hu : uptimeVoteHash C _ ?x = (Returns ?a, _),
               Hb : isHash ?a = false |- _ =>
                 destruct (Hs x) as (h' & x' & E & Hh);
                 rewrite E in Hu; injection Hu as Hu1 Hu2; subst;
                 congruence
             end]|].
  all: split;
    [intros Hs;
     first [split; reflexivity
           | exfalso;
             match goal with
             | Hu : rewardsHash C _ ?x = (Returns ?a, _),
               Hb : isHash ?a = false |- _ =>
                 destruct (Hs x) as (h' & x' & E & Hh);
                 rewrite E in Hu; injection Hu as Hu1 Hu2; subst;
                 congruence
             end]|].
  all: intros (_ & _ & Hu & Hg & Hsu & Hr & Hd & Hsr & _ & Hwf).
  all: first
    [split; reflexivity
    | exfalso;
      match goal with
      | H : uptimeVoteHash C ?e ?x = (Throws _, _) |- _ =>
          destruct (Hu e x) as (? & ? & E); rewrite E in H; discriminate
      | H : getUptimeVoteHash C ?x = (Throws _, _) |- _ =>
          destruct (Hg x) as (? & ? & E); rewrite E in H; discriminate
      | H : signUptimeVote C ?e ?h ?x = (Throws _, _) |- _ =>
          destruct (Hsu e h x) as (? & E); rewrite E in H; discriminate
      | H : rewardsHash C ?e ?x = (Throws _, _) |- _ =>
          destruct (Hr e x) as (? & ? & E); rewrite E in H; discriminate
      | H : getRewardsData C ?e ?x = (Throws _, _) |- _ =>
          destruct (Hd e x) as (? & ? & E); rewrite E in H; discriminate
      | H : signRewards C ?e ?h ?n ?x = (Throws _, _) |- _ =>
          destruct (Hsr e h n x) as (? & E); rewrite E in H; discriminate
      | H : writeFileSync_fault C ?d ?x = (Some _, _) |- _ =>
          specialize (Hwf d x); rewrite H in Hwf; discriminate
      end].
Qed.

Lemma not_in_turn (k : EpochCall) (e s : Z) (r : Outcome (LoopCtl * Z))
      (evs : list Event) :
  iteration_calls s r evs -> e <> s -> ~ In e (epochs_of k evs).
Proof.
  intros (_ & H2 & _) Hne. destruct (H2 k) as [->| ->]; simpl; intuition.
Qed.

Lemma for_epochs_handlers (n : nat) :
  forall (s l : Z) (w : World C),
  exists evs,
    log (snd (for_epochs n s l w)) = log w ++ evs
    /\ Forall (payload_fetched C) evs
    /\ (forall e, uptime_vote_signed C e ->
        ~ In e (epochs_of KSignUptimeVote evs))
    /\ (forall e, rewards_signed C e ->
        ~ In e (epochs_of KGetRewardsData evs)
        /\ ~ In e (epochs_of KSignRewards evs))
    /\ (never_fails C ->
        fst (for_epochs n s l w) =
          Normal (match n with O => l | S n' => s + Z.of_nat n' end)
        /\ writes evs =
             List.map (fun k => (checkpoint_text k, true)) (epochs_from s n)).
Proof.
  induction n as [|n IH]; intros s l w.
  - exists []. simpl. rewrite app_nil_r.
    split; [reflexivity|]. split; [constructor|].
    split; [intros e _ []|]. split; [intros e _; split; intros []|].
    intros _. split; reflexivity.
  - destruct (for_body_handlers s l w) as (evs & Hlog & Hp & Hu & Hr & Hn).
    destruct (for_body_calls s l w) as (evs' & Hlog' & Hit).
    assert (evs' = evs) as ->
        by (rewrite Hlog in Hlog'; now apply app_inv_head in Hlog').
    assert (Hturn : forall e,
               (uptime_vote_signed C e ->
                ~ In e (epochs_of KSignUptimeVote evs))
               /\ (rewards_signed C e ->
                   ~ In e (epochs_of KGetRewardsData evs)
                   /\ ~ In e (epochs_of KSignRewards evs))).
    { intros e. destruct (Z.eq_dec e s) as [->|Hne].
      - split.
        + intros H. rewrite (Hu H). intros [].
        + intros H. destruct (Hr H) as [-> ->]. split; intros [].
      - split; [intros _|intros _; split];
          apply (not_in_turn _ _ _ _ _ Hit Hne). }
    simpl. unfold bind.
    destruct (for_body s l w) as [[[[|] l']|err|] w1]; simpl in *.
    + destruct (IH (s + 1) l' w1) as (rest & Hlog2 & Hp2 & Hu2 & Hr2 & Hn2).
      exists (evs ++ rest). rewrite Hlog2, Hlog, app_assoc.
      split; [reflexivity|].
      split; [apply Forall_app; split; assumption|].
      split; [|split].
      * intros e H. rewrite epochs_of_app. intros Hin.
        apply in_app_or in Hin. destruct Hin as [Hin|Hin].
        -- now apply (proj1 (Hturn e)).
        -- now apply (Hu2 e).
      * intros e H. rewrite !epochs_of_app.
        split; intros Hin; apply in_app_or in Hin; destruct Hin as [Hin|Hin].
        -- now apply (proj1 (proj2 (Hturn e) H)).
        -- now apply (proj1 (Hr2 e H)).
        -- now apply (proj2 (proj2 (Hturn e) H)).
        -- now apply (proj2 (Hr2 e H)).
      * intros H. destruct (Hn H) as [Hfst Hw].
        destruct (Hn2 H) as [Hfst2 Hw2].
        injection Hfst as ->.
        rewrite Hfst2, writes_app, Hw, Hw2.
        split; [|reflexivity]. destruct n; f_equal; lia.
    + exists evs. split; [assumption|]. split; [assumption|].
      split; [intros e; apply Hturn|]. split; [intros e; apply Hturn|].
      intros H. destruct (Hn H) as [Hfst _]. discriminate Hfst.
    + exists evs. split; [assumption|]. split; [assumption|].
      split; [intros e; apply Hturn|]. split; [intros e; apply Hturn|].
      intros H. destruct (Hn H) as [Hfst _]. discriminate Hfst.
    + exists evs. split; [assumption|]. split; [assumption|].
      split; [intros e; apply Hturn|]. split; [intros e; apply Hturn|].
      intros H. destruct (Hn H) as [Hfst _]. discriminate Hfst.
Qed.

End ScanHandlers.

(** ** The calls of a run *)

Section RunCalls.

Context {C : Collaborators}.

(** What the reading of the inputs logs. *)
Lemma readInputs_events (w : World C) :
  exists evs,
    log (snd (readInputs w)) = log w ++ evs
    /\ Forall (fun ev => is_wrapper_event ev = false) evs
    /\ Forall (fun ev => uncaught_error ev = None) evs
    /\ ((forall x, fst (readFileSync_fault C x) = None) ->
        Forall (fun ev => read_failed ev = false) evs).
Proof.
  unfold readInputs, loadState, existsSync, readFileSync, JSON_parse, bind,
    try_catch, console_error, emit, ret, throw, get_lastCompletedEpoch, call.
  simpl. repeat split_path.
  all: repeat rewrite <- app_assoc; simpl.
  all: eexists; split; [reflexivity|].
  all: split; [forall_refl|].
  all: split; [forall_refl|].
  all: intros Hok; try forall_refl.
  all: match goal with
       | H : readFileSync_fault C ?x = (Some _, _) |- _ =>
           specialize (Hok x); rewrite H in Hok; discriminate
       end.
Qed.

(** A run from what it read: the two header lines, the calls of the scan,
    and the line that closes the run. *)
Lemma checkAndSign_calls (w w0 : World C) (current last : Z) :
  readInputs w = (Normal (current, last), w0) ->
  let s := startEpoch_of last current in
  exists scan r,
    scan_run s (Z.to_nat (current - s + 1)) r scan
    /\ fst (scan_of w0 current last) = r
    /\ log (snd (checkAndSign w)) =
         log w0 ++ ConsoleLog (LCheckingEpochs s current)
                :: ConsoleLog (LLastCompletedEpoch last)
                :: scan ++ [closing_line r]
    /\ fst (checkAndSign w) = Normal tt
    /\ file (snd (checkAndSign w)) = file_after (writes scan) (file w0)
    /\ Forall (payload_fetched C) scan
    /\ (forall e, uptime_vote_signed C e ->
        ~ In e (epochs_of KSignUptimeVote scan))
    /\ (forall e, rewards_signed C e ->
        ~ In e (epochs_of KGetRewardsData scan)
        /\ ~ In e (epochs_of KSignRewards scan))
    /\ (never_fails C ->
        writes scan =
          List.map (fun k => (checkpoint_text k, true))
            (epochs_from s (Z.to_nat (current - s + 1)))).
Proof.
  intros Hin s. rewrite (checkAndSign_from_inputs _ _ _ _ Hin). cbv zeta.
  unfold scan_of, scan_world. fold s.
  match goal with
  | |- context [for_epochs ?n ?s ?l ?w1] =>
      destruct (for_epochs_run n s l w1) as (scan & Hlog & Hsc);
      destruct (for_epochs_spec n s l w1) as (scan' & Hlog' & _ & Hfile & _);
      destruct (for_epochs_handlers n s l w1)
        as (scan2 & Hlog2 & Hp & Hu & Hr & Hn);
      pose proof (loop_never_ill_typed _ _ _ _ Hsc) as Hty;
      destruct (for_epochs n s l w1) as [r w2]
  end.
  simpl in *.
  assert (scan' = scan) as ->
      by (rewrite Hlog in Hlog'; now apply app_inv_head in Hlog').
  assert (scan2 = scan) as ->
      by (rewrite Hlog in Hlog2; now apply app_inv_head in Hlog2).
  exists scan, r. split; [exact Hsc|]. split; [reflexivity|].
  assert (Hw : never_fails C ->
               writes scan =
                 List.map (fun k => (checkpoint_text k, true))
                   (epochs_from s (Z.to_nat (current - s + 1))))
    by (intros H; apply (Hn H)).
  destruct r as [l'|e|]; [| |congruence]; simpl;
    rewrite Hlog, <- !app_assoc; simpl; auto 10.
Qed.

(** Any run: what it logs before the scan and after it concerns no epoch and
    is no event of the retry wrapper, and the scan covers at most 5
    epochs. *)
Lemma checkAndSign_calls_any (w : World C) :
  exists pre scan post s n r,
    log (snd (checkAndSign w)) = log w ++ pre ++ scan ++ post
    /\ Forall quiet pre /\ Forall quiet post
    /\ Forall (fun ev => is_wrapper_event ev = false) pre
    /\ Forall (fun ev => is_wrapper_event ev = false) post
    /\ Forall (fun ev => uncaught_error ev = None) pre
    /\ Forall (fun ev => uncaught_error ev = None) post
    /\ scan_run s n r scan
    /\ (n <= 5)%nat
    /\ file (snd (checkAndSign w)) = file_after (writes scan) (file w)
    /\ (scan = [] \/
        (post = [closing_line r] /\ fst (checkAndSign w) = Normal tt))
    /\ Forall (payload_fetched C) scan
    /\ (forall e, uptime_vote_signed C e ->
        ~ In e (epochs_of KSignUptimeVote scan))
    /\ (forall e, rewards_signed C e ->
        ~ In e (epochs_of KGetRewardsData scan)
        /\ ~ In e (epochs_of KSignRewards scan)).
Proof.
  pose proof (checkAndSign_run w) as H.
  pose proof (checkAndSign_calls w) as Hc.
  destruct (readInputs_spec w) as (evs & Hlog & Hq & Hfile & _).
  destruct (readInputs_events w) as (evs' & Hlog' & Hw & Hun & _).
  assert (evs' = evs) as ->
      by (rewrite Hlog in Hlog'; now apply app_inv_head in Hlog').
  destruct (readInputs w) as [[[c last]|e|] w0] eqn:E; simpl in *.
  - destruct (Hc w0 c last eq_refl)
      as (scan & r & Hsc & _ & Hl & Hn & Hf & Hp & Hu & Hr & _).
    exists (evs ++ [ConsoleLog (LCheckingEpochs (startEpoch_of last c) c);
                    ConsoleLog (LLastCompletedEpoch last)]), scan,
      [closing_line r], (startEpoch_of last c),
      (Z.to_nat (c - startEpoch_of last c + 1)), r.
    rewrite Hl, Hlog, <- !app_assoc. simpl.
    split; [reflexivity|].
    split; [apply Forall_app; split; [assumption | quiet_list]|].
    split; [destruct r; quiet_list|].
    split; [apply Forall_app; split; [assumption | forall_refl]|].
    split; [destruct r; forall_refl|].
    split; [apply Forall_app; split; [assumption | forall_refl]|].
    split; [destruct r; forall_refl|].
    split; [exact Hsc|].
    split; [unfold startEpoch_of; lia|].
    split; [congruence|]. split; [right; split; [reflexivity | exact Hn]|].
    split; [exact Hp|]. split; [exact Hu | exact Hr].
  - exists (evs ++ [ConsoleError (LErrorInCheckAndSign e)]), [], [], 0, O,
      (Normal 0).
    rewrite H. simpl. rewrite Hlog, Hfile, <- !app_assoc, !app_nil_r.
    split; [reflexivity|].
    split; [apply Forall_app; split; [assumption | quiet_list]|].
    split; [constructor|].
    split; [apply Forall_app; split; [assumption | forall_refl]|].
    split; [constructor|].
    split; [apply Forall_app; split; [assumption | forall_refl]|].
    split; [constructor|].
    split; [constructor|]. split; [lia|]. split; [reflexivity|].
    split; [now left|]. split; [constructor|].
    split; [intros e0 _ [] | intros e0 _; split; intros []].
  - exists evs, [], [], 0, O, (Normal 0).
    rewrite H. simpl. rewrite Hlog, Hfile, !app_nil_r.
    split; [reflexivity|]. split; [assumption|].
    split; [constructor|]. split; [assumption|]. split; [constructor|].
    split; [assumption|]. split; [constructor|].
    split; [constructor|]. split; [lia|]. split; [reflexivity|].
    split; [now left|]. split; [constructor|].
    split; [intros e0 _ [] | intros e0 _; split; intros []].
Qed.

End RunCalls.

(** ** A run, seen from its log *)

Lemma epochs_of_frame (k : EpochCall) (pre scan post : list Event) :
  Forall quiet pre -> Forall quiet post ->
  epochs_of k (pre ++ scan ++ post) = epochs_of k scan.
Proof.
  intros Hpre Hpost.
  now rewrite !epochs_of_app, (epochs_of_quiet k pre Hpre),
    (epochs_of_quiet k post Hpost), app_nil_r.
Qed.

Lemma completed_frame (pre scan post : list Event) :
  Forall quiet pre -> Forall quiet post ->
  completed_epochs (pre ++ scan ++ post) = completed_epochs scan.
Proof.
  intros Hpre Hpost.
  now rewrite !completed_epochs_app, (completed_quiet pre Hpre),
    (completed_quiet post Hpost), app_nil_r.
Qed.

Lemma saved_frame (pre scan post : list Event) :
  Forall quiet pre -> Forall quiet post ->
  saved_epochs (pre ++ scan ++ post) = saved_epochs scan.
Proof.
  intros Hpre Hpost. unfold saved_epochs.
  now rewrite !writes_app, (writes_quiet pre Hpre),
    (writes_quiet post Hpost), app_nil_r.
Qed.

Lemma closing_quiet (r : Outcome Z) : Forall quiet [closing_line r].
Proof. destruct r; quiet_list. Qed.

Lemma quiet_about_no_epoch (P : Event -> Prop) (k : Z) (evs : list Event) :
  Forall quiet evs ->
  Forall (fun ev => event_epoch ev = Some k -> P ev) evs.
Proof.
  intros H. eapply Forall_impl; [|exact H].
  intros ev [Hq _] He. congruence.
Qed.

Lemma payload_quiet (C : Collaborators) (evs : list Event) :
  Forall quiet evs -> Forall (payload_fetched C) evs.
Proof.
  intros H. eapply Forall_impl; [|exact H].
  intros [[] t| |] [Hq _]; simpl in *; try exact I; discriminate.
Qed.

Lemma last_event_snoc (evs : list Event) (ev : Event) :
  last_event evs = Some ev -> exists before, evs = before ++ [ev].
Proof.
  unfold last_event. intros H.
  destruct (rev evs) as [|x l] eqn:E; [discriminate|]. injection H as ->.
  exists (rev l). rewrite <- (rev_involutive evs), E. reflexivity.
Qed.


(** The checkpoints of a scan in which every epoch is saved. *)
Lemma saves_all_epochs (l : list Z) :
  saves (List.map (fun k => (checkpoint_text k, true)) l) =
  List.map (fun k => (k, true)) l.
Proof.
  induction l as [|k l IH]; [reflexivity|].
  simpl. now rewrite checkpoint_of_text_checkpoint_text, IH.
Qed.

Lemma file_after_all_epochs (l : list Z) (f : option jsstring) :
  file_after (List.map (fun k => (checkpoint_text k, true)) l) f =
  match last_of l with
  | Some k => Some (checkpoint_text k)
  | None => f
  end.
Proof.
  revert f. induction l as [|k l IH]; intros f; [reflexivity|].
  rewrite last_of_cons. cbn [List.map file_after]. rewrite IH.
  destruct (last_of l); reflexivity.
Qed.

Lemma last_of_epochs_from (s : Z) (n : nat) :
  last_of (epochs_from s (S n)) = Some (s + Z.of_nat n).
Proof.
  revert s. induction n as [|n IH]; intros s.
  - unfold last_of. simpl. f_equal. lia.
  - change (epochs_from s (S (S n))) with (s :: epochs_from (s + 1) (S n)).
    rewrite last_of_cons, IH. f_equal. lia.
Qed.

Section RunView.

Context {C : Collaborators}.

Lemma checkAndSign_typed (w : World C) :
  persisted (file w) <> IllTyped -> fst (checkAndSign w) = Normal tt.
Proof.
  intros Hty. pose proof (checkAndSign_run w) as H.
  destruct (readInputs_spec w) as (pre & _ & _ & _ & _ & Hill).
  destruct (readInputs w) as [[[c last]|e|] w0]; simpl in *.
  - destruct H as (scan & post & _ & _ & _ & _ & Hn). exact Hn.
  - now rewrite H.
  - exfalso. now apply Hty, Hill.
Qed.

(** A run that read its inputs: what it logs before the scan, the scan, the
    closing line. *)
Lemma checkAndSign_view (w w0 : World C) (current last : Z) :
  readInputs w = (Normal (current, last), w0) ->
  let s := startEpoch_of last current in
  exists pre scan r,
    new_events w (snd (checkAndSign w)) = pre ++ scan ++ [closing_line r]
    /\ Forall quiet pre
    /\ scan_run s (Z.to_nat (current - s + 1)) r scan
    /\ file (snd (checkAndSign w)) = file_after (writes scan) (file w)
    /\ (never_fails C ->
        writes scan =
          List.map (fun k => (checkpoint_text k, true))
            (epochs_from s (Z.to_nat (current - s + 1)))).
Proof.
  intros Hin s.
  destruct (readInputs_spec w) as (pre & Hlog & Hq & Hfile & _).
  rewrite Hin in Hlog, Hfile. simpl in Hlog, Hfile.
  destruct (checkAndSign_calls w w0 current last Hin)
    as (scan & r & Hsc & _ & Hl & _ & Hf & _ & _ & _ & Hn).
  exists (pre ++ [ConsoleLog (LCheckingEpochs s current);
                  ConsoleLog (LLastCompletedEpoch last)]), scan, r.
  split.
  - apply new_events_app. rewrite Hl, Hlog, <- !app_assoc. reflexivity.
  - split; [apply Forall_app; split; [assumption | quiet_list]|].
    split; [exact Hsc|]. split; [congruence | exact Hn].
Qed.

(** Any run. *)
Lemma checkAndSign_view_any (w : World C) :
  exists pre scan post s n r,
    new_events w (snd (checkAndSign w)) = pre ++ scan ++ post
    /\ Forall quiet pre /\ Forall quiet post
    /\ Forall (fun ev => uncaught_error ev = None) pre
    /\ Forall (fun ev => uncaught_error ev = None) post
    /\ scan_run s n r scan
    /\ (n <= 5)%nat
    /\ (scan = [] \/
        (post = [closing_line r] /\ fst (checkAndSign w) = Normal tt))
    /\ Forall (payload_fetched C) scan
    /\ (forall e, uptime_vote_signed C e ->
        ~ In e (epochs_of KSignUptimeVote scan))
    /\ (forall e, rewards_signed C e ->
        ~ In e (epochs_of KGetRewardsData scan)
        /\ ~ In e (epochs_of KSignRewards scan)).
Proof.
  destruct (checkAndSign_calls_any w)
    as (pre & scan & post & s & n & r & Hl & Hq1 & Hq2 & _ & _ & Hu & Hu2
        & Hsc & Hn & _ & Hc & Hp & Hsu & Hsr).
  exists pre, scan, post, s, n, r.
  split; [now apply new_events_app|]. auto 13.
Qed.

End RunView.

(** ** The wrapper around a run that cannot throw *)

Lemma wrapper_events_none (evs : list Event) :
  Forall (fun ev => is_wrapper_event ev = false) evs ->
  wrapper_events evs = [].
Proof.
  induction 1 as [|ev evs Hev _ IH]; [reflexivity|].
  unfold wrapper_events in *. simpl. now rewrite Hev.
Qed.

Lemma wrapper_events_app (a b : list Event) :
  wrapper_events (a ++ b) = wrapper_events a ++ wrapper_events b.
Proof. apply filter_app. Qed.


Section Wrapper.

Context {C : Collaborators}.

Lemma checkAndSign_no_wrapper (w : World C) :
  exists evs,
    log (snd (checkAndSign w)) = log w ++ evs
    /\ wrapper_events evs = [].
Proof.
  destruct (checkAndSign_calls_any w)
    as (pre & scan & post & s & n & r & Hl & _ & _ & Hw1 & Hw2 & _ & _ & Hsc
        & _).
  exists (pre ++ scan ++ post). split; [exact Hl|].
  rewrite !wrapper_events_app, (wrapper_events_none _ Hw1),
    (wrapper_events_none _ Hw2),
    (wrapper_events_none _ (scan_run_wrapper _ _ _ _ Hsc)).
  reflexivity.
Qed.

(** The wrapper around a run on a typed checkpoint: the run, once. *)
Lemma runWithRetry_once (w : World C) :
  persisted (file w) <> IllTyped ->
  exists evs,
    log (snd (checkAndSign w)) = log w ++ evs
    /\ wrapper_events evs = []
    /\ runWithRetry w =
         (Normal tt,
          Build_World (ext (snd (checkAndSign w)))
            (file (snd (checkAndSign w)))
            (log w ++ evs ++ [Called CCheckAndSign None])).
Proof.
  intros Hty. destruct (checkAndSign_no_wrapper w) as (evs & Hl & Hw).
  exists evs. split; [exact Hl|]. split; [exact Hw|].
  rewrite (runWithRetry_normal w (checkAndSign_typed w Hty)), Hl.
  now rewrite <- app_assoc.
Qed.


(** A run on a checkpoint file that holds [null], on a disk that answers
    every read. *)
Lemma checkAndSign_null (w : World C) (err : JsError) :
  (forall x, fst (readFileSync_fault C x) = None) ->
  persisted (file w) = Thrown err ->
  exists evs,
    log (snd (checkAndSign w)) = log w ++ evs
    /\ Forall quiet evs
    /\ file (snd (checkAndSign w)) = file w
    /\ (exists e,
          last_event evs = Some (ConsoleError (LErrorInCheckAndSign e))).
Proof.
  intros Hok Hnull.
  pose proof (checkAndSign_run w) as H.
  destruct (readInputs_spec w) as (pre & Hl0 & Hq & Hf0 & Hp & Hill).
  destruct (readInputs_events w) as (pre' & Hl0' & _ & _ & Hnf).
  assert (pre' = pre) as ->
      by (rewrite Hl0 in Hl0'; now apply app_inv_head in Hl0').
  specialize (Hnf Hok).
  destruct (readInputs w) as [[[c last]|e|] w0]; simpl in *.
  - specialize (Hp c last eq_refl Hnf). congruence.
  - rewrite H. simpl.
    exists (pre ++ [ConsoleError (LErrorInCheckAndSign e)]).
    split; [rewrite Hl0, <- app_assoc; reflexivity|].
    split; [apply Forall_app; split; [assumption | quiet_list]|].
    split; [exact Hf0|].
    exists e. apply last_event_app. reflexivity.
  - rewrite (Hill eq_refl) in Hnull. discriminate.
Qed.

Lemma runs_null (n : nat) (err : JsError) :
  (forall x, fst (readFileSync_fault C x) = None) ->
  forall w : World C,
  persisted (file w) = Thrown err ->
  exists evs,
    log (snd (runs n w)) = log w ++ evs
    /\ Forall quiet evs
    /\ file (snd (runs n w)) = file w
    /\ fst (runs n w) = Normal tt.
Proof.
  intros Hok. induction n as [|n IH]; intros w Hnull.
  - exists []. simpl. rewrite app_nil_r. auto.
  - destruct (checkAndSign_null w err Hok Hnull) as (evs & Hl & Hq & Hf & _).
    assert (Hty : persisted (file w) <> IllTyped) by congruence.
    simpl. unfold bind.
    rewrite (runWithRetry_normal w (checkAndSign_typed w Hty)).
    match goal with
    | |- context [runs n ?w1] =>
        assert (Hnull1 : persisted (file w1) = Thrown err)
          by (simpl; now rewrite Hf);
        destruct (IH w1 Hnull1) as (rest & Hl2 & Hq2 & Hf2 & Hn2)
    end.
    simpl in Hl2, Hf2.
    exists (evs ++ [Called CCheckAndSign None] ++ rest).
    split; [rewrite Hl2, Hl, <- !app_assoc; reflexivity|].
    split; [apply Forall_app; split; [assumption|];
            apply Forall_app; split; [quiet_list | assumption]|].
    split; [now rewrite Hf2 | exact Hn2].
Qed.

End Wrapper.

(** ** The order of the calls *)

Lemma epochs_touched_app (a b : list Event) :
  epochs_touched (a ++ b) = epochs_touched a ++ epochs_touched b.
Proof.
  induction a as [|ev a IH]; [reflexivity|]. simpl.
  destruct (event_epoch ev); simpl; now rewrite IH.
Qed.

Lemma epochs_touched_quiet (evs : list Event) :
  Forall quiet evs -> epochs_touched evs = [].
Proof.
  induction 1 as [|ev evs [He _] _ IH]; [reflexivity|].
  simpl. now rewrite He.
Qed.

Lemma epochs_touched_range (P : Z -> Prop) (evs : list Event) :
  Forall (fun ev => forall e, event_epoch ev = Some e -> P e) evs ->
  Forall P (epochs_touched evs).
Proof.
  induction 1 as [|ev evs Hev _ IH]; [constructor|].
  simpl. destruct (event_epoch ev) as [e|]; [|exact IH].
  constructor; [now apply Hev | exact IH].
Qed.

Lemma sorted_all_equal (s : Z) (l : list Z) :
  Forall (fun e => e = s) l -> StronglySorted Z.le l.
Proof.
  induction 1 as [|x l Hx Hl IH]; constructor; [exact IH|].
  eapply Forall_impl; [|exact Hl]. simpl. lia.
Qed.

Lemma sorted_le_app (a b : list Z) :
  StronglySorted Z.le a -> StronglySorted Z.le b ->
  (forall x y, In x a -> In y b -> x <= y) ->
  StronglySorted Z.le (a ++ b).
Proof.
  induction 1 as [|x a Hs IH Hx]; intros Hb Hab; [exact Hb|].
  simpl. constructor.
  - apply IH; [assumption|]. intros; apply Hab; simpl; auto.
  - apply Forall_app. split; [assumption|].
    apply Forall_forall. intros y Hy. apply Hab; simpl; auto.
Qed.

(** The calls of a scan go from epoch to epoch, in increasing order. *)
Lemma scan_run_in_order (s : Z) (n : nat) (r : Outcome Z)
      (evs : list Event) :
  scan_run s n r evs ->
  StronglySorted Z.le (epochs_touched evs)
  /\ Forall (fun e => s <= e) (epochs_touched evs).
Proof.
  induction 1 as [s l|s n r evs Hit Hst|s n l evs r' rest Hit Hsc IH].
  - split; constructor.
  - destruct Hit as (_ & _ & H3 & _).
    apply epochs_touched_range in H3. split.
    + now apply (sorted_all_equal s).
    + eapply Forall_impl; [|exact H3]. simpl. lia.
  - destruct Hit as (_ & _ & H3 & _). destruct IH as [IH1 IH2].
    apply epochs_touched_range in H3.
    rewrite epochs_touched_app. split.
    + apply sorted_le_app; [now apply (sorted_all_equal s) | exact IH1|].
      intros x y Hx Hy. rewrite Forall_forall in H3, IH2.
      specialize (H3 x Hx). specialize (IH2 y Hy). lia.
    + apply Forall_app. split.
      * eapply Forall_impl; [|exact H3]. simpl. lia.
      * eapply Forall_impl; [|exact IH2]. simpl. lia.
Qed.

Lemma guarded_weaken (evs : list Event) :
  forall seen seen' : list Event,
  (forall x, In x seen -> In x seen') ->
  guarded seen evs -> guarded seen' evs.
Proof.
  induction evs as [|ev evs IH]; intros seen seen' Hsub; [trivial|].
  simpl. intros [Hc Hg]. split.
  - destruct ev as [[] t| |]; simpl in *; intuition.
  - apply (IH (ev :: seen)); [|exact Hg].
    intros x [->|Hx]; [now left | right; auto].
Qed.

Lemma guarded_app (a b : list Event) :
  forall seen, guarded seen a -> guarded [] b -> guarded seen (a ++ b).
Proof.
  induction a as [|ev a IH]; intros seen Ha Hb.
  - simpl. apply (guarded_weaken b []); [intros x []|exact Hb].
  - destruct Ha as [Hc Ha]. simpl. split; [exact Hc | now apply IH].
Qed.

Lemma guarded_quiet (evs : list Event) :
  Forall quiet evs -> forall seen, guarded seen evs.
Proof.
  induction 1 as [|ev evs [He _] _ IH]; intros seen; [exact I|].
  simpl. split; [|apply IH].
  destruct ev as [[] t| |]; simpl in *; try exact I; discriminate.
Qed.

Lemma guarded_at (a b : list Event) (ev : Event) :
  forall seen,
  guarded seen (a ++ ev :: b) ->
  forall seen', (forall x, In x seen \/ In x a -> In x seen') ->
  checked_before seen' ev.
Proof.
  induction a as [|x a IH]; intros seen Hg seen' Hsub.
  - destruct Hg as [Hc _].
    destruct ev as [[] t| |]; simpl in *; intuition.
  - destruct Hg as [_ Hg]. apply (IH (x :: seen) Hg).
    intros y [[->|Hy]|Hy]; apply Hsub; simpl; auto.
Qed.

Lemma scan_run_guarded (s : Z) (n : nat) (r : Outcome Z)
      (evs : list Event) :
  scan_run s n r evs -> guarded [] evs.
Proof.
  induction 1 as [s l|s n r evs Hit Hst|s n l evs r' rest Hit Hsc IH].
  - exact I.
  - apply Hit.
  - apply guarded_app; [apply Hit | exact IH].
Qed.

(** ** Where the checkpoint is written *)

Lemma split_middle {A : Type} (l1 l2 a b : list A) (x : A) :
  l1 ++ l2 = a ++ x :: b ->
  (exists b1, l1 = a ++ x :: b1 /\ b = b1 ++ l2)
  \/ (exists a2, a = l1 ++ a2 /\ l2 = a2 ++ x :: b).
Proof.
  revert a. induction l1 as [|y l1 IH]; intros a H.
  - right. exists a. split; [reflexivity | exact H].
  - destruct a as [|z a]; simpl in H.
    + injection H as <- <-. left. exists l1. split; reflexivity.
    + injection H as <- H.
      destruct (IH a H) as [(b1 & -> & ->)|(a2 & -> & ->)].
      * left. exists b1. split; reflexivity.
      * right. exists a2. split; reflexivity.
Qed.

Lemma quiet_no_write (evs a b : list Event) (data : jsstring)
      (t : option JsError) :
  Forall quiet evs -> evs <> a ++ Called (CWriteFileSync data) t :: b.
Proof.
  intros Hq ->. apply Forall_app in Hq as [_ Hq].
  inversion Hq as [|x l [_ Hw] _]. discriminate Hw.
Qed.

Lemma saved_last_after (a b : list Event) (ev : Event) :
  saved_last (a ++ ev :: b) -> is_write ev = true -> epochs_touched b = [].
Proof.
  induction a as [|x a IH]; simpl; intros [H1 H2] Hw;
    [now apply H1 | now apply IH].
Qed.

(** The write of a turn: the checkpoint of its epoch, after which the turn
    makes no call about an epoch. *)
Lemma iteration_write (e : Z) (r : Outcome (LoopCtl * Z))
      (a b : list Event) (data : jsstring) (t : option JsError) :
  iteration_calls e r (a ++ Called (CWriteFileSync data) t :: b) ->
  data = checkpoint_text e
  /\ epochs_touched b = []
  /\ Forall (fun x => x = e) (epochs_touched a).
Proof.
  intros (_ & _ & H3 & H4 & _ & _ & _ & _ & _ & _ & Hs & _).
  split; [|split].
  - rewrite writes_app in H4.
    destruct H4 as [H4|[ok H4]];
      [destruct (writes a), t; discriminate|].
    destruct (writes a) as [|p l]; destruct t; simpl in H4;
      try (injection H4 as _ H4; destruct l; discriminate);
      now injection H4 as -> _.
  - now apply (saved_last_after a b _ Hs).
  - apply Forall_app in H3 as [H3 _].
    now apply epochs_touched_range.
Qed.

Lemma scan_run_write (s : Z) (n : nat) (r : Outcome Z) (evs : list Event) :
  scan_run s n r evs ->
  forall (a b : list Event) (data : jsstring) (t : option JsError),
  evs = a ++ Called (CWriteFileSync data) t :: b ->
  exists k,
    s <= k
    /\ data = checkpoint_text k
    /\ Forall (fun e => e <= k) (epochs_touched a)
    /\ Forall (fun e => k < e) (epochs_touched b).
Proof.
  induction 1 as [s l|s n r evs Hit Hst|s n l evs r' rest Hit Hsc IH];
    intros a b data t Heq.
  - destruct a; discriminate.
  - subst evs. destruct (iteration_write _ _ _ _ _ _ Hit) as (-> & Hb & Ha).
    exists s. split; [lia|]. split; [reflexivity|]. split.
    + eapply Forall_impl; [|exact Ha]. simpl. lia.
    + rewrite Hb. constructor.
  - destruct (split_middle _ _ _ _ _ Heq)
      as [(b1 & -> & ->)|(a2 & -> & Hrest)].
    + destruct (iteration_write _ _ _ _ _ _ Hit) as (-> & Hb & Ha).
      exists s. split; [lia|]. split; [reflexivity|]. split.
      * eapply Forall_impl; [|exact Ha]. simpl. lia.
      * rewrite epochs_touched_app, Hb. simpl.
        destruct (scan_run_in_order _ _ _ _ Hsc) as [_ Hge].
        eapply Forall_impl; [|exact Hge]. simpl. lia.
    + destruct (IH _ _ _ _ Hrest) as (k & Hk & -> & Ha & Hb).
      exists k. split; [lia|]. split; [reflexivity|]. split; [|exact Hb].
      rewrite epochs_touched_app. apply Forall_app. split; [|exact Ha].
      destruct Hit as (_ & _ & H3 & _).
      apply epochs_touched_range in H3.
      eapply Forall_impl; [|exact H3]. simpl. lia.
Qed.

(** * Further properties, by function *)

(** X1.  A run examines consecutive epochs: with [last] the checkpoint it
    loads and [current] the epoch it reads, the epochs whose uptime vote
    hash it reads are [start], [start + 1], ... for some number [m] of
    them, at most 5 and at most up to [current], where [start] is
    [max (last + 1) (current - 4)]; and it stops short of [current] only
    when some call of the run halted the scan (an uptime vote refused with
    "epoch not ended", a rewards fetch or submission that threw) or a hash
    read threw. *)
Theorem scan_examines_consecutive_epochs {C : Collaborators}
        (w w0 : World C) (current last : Z) :
  readInputs w = (Normal (current, last), w0) ->
  let evs := new_events w (snd (checkAndSign w)) in
  let start := startEpoch_of last current in
  exists m,
    (m <= Z.to_nat (current - start + 1))%nat
    /\ (m <= 5)%nat
    /\ epochs_of KUptimeVoteHash evs = epochs_from start m
    /\ (m = Z.to_nat (current - start + 1)
        \/ exists ev, In ev evs
                      /\ (halts ev = true \/ uncaught_error ev <> None)).
Proof.
  intros Hin evs start.
  pose proof (checkAndSign_view w w0 current last Hin) as H.
  cbv zeta in H. fold start in H.
  destruct H as (pre & scan & r & Hevs & Hq & Hsc & _).
  destruct (scan_run_examined _ _ _ _ Hsc) as (m & Hm & He & Hc).
  exists m. split; [exact Hm|].
  split; [unfold start, startEpoch_of in *; lia|].
  unfold evs. rewrite Hevs, (epochs_of_frame _ _ _ _ Hq (closing_quiet r)).
  split; [exact He|].
  destruct Hc as [->|(ev & Hin' & Hc)]; [now left|].
  right. exists ev. split; [|exact Hc].
  apply in_or_app; right; apply in_or_app; now left.
Qed.

Lemma scan_examines_consecutive_epochs_witness :
  let w := Scripted.world Scenario.epoch_not_ended None in
  let evs := new_events w (snd (checkAndSign w)) in
  exists m,
    (m <= Z.to_nat (3 - startEpoch_of (-1) 3 + 1))%nat
    /\ (m <= 5)%nat
    /\ epochs_of KUptimeVoteHash evs = epochs_from (startEpoch_of (-1) 3) m
    /\ (m = Z.to_nat (3 - startEpoch_of (-1) 3 + 1)
        \/ exists ev, In ev evs
                      /\ (halts ev = true \/ uncaught_error ev <> None)).
Proof.
  intros w evs.
  assert (H : readInputs w = (Normal (3, -1), snd (readInputs w)))
    by (vm_compute; reflexivity).
  exact (scan_examines_consecutive_epochs w _ 3 (-1) H).
Defined.

(** X2.  In any run, for each kind of call about an epoch (the two hash
    reads, the fetch of the rewards data, the two submissions), the epochs
    the call is made for strictly increase, so that no epoch gets the same
    call twice, and there are at most 5 of them. *)
Theorem calls_increase_at_most_five {C : Collaborators} (w : World C)
        (k : EpochCall) :
  let called := epochs_of k (new_events w (snd (checkAndSign w))) in
  StronglySorted Z.lt called /\ (List.length called <= 5)%nat.
Proof.
  intros called. subst called.
  destruct (checkAndSign_view_any w)
    as (pre & scan & post & s & n & r & Hevs & Hq1 & Hq2 & _ & _ & Hsc & Hn
        & _).
  rewrite Hevs, (epochs_of_frame _ _ _ _ Hq1 Hq2).
  destruct (scan_run_sorted k _ _ _ _ Hsc) as (Hs & _ & Hl).
  split; [exact Hs | lia].
Qed.

(** X3.  A run calls [saveState] for an epoch only after both hash reads of
    that epoch returned in this run, and when no call about that epoch
    threw in this run (so no submission for it failed). *)
Theorem saved_epoch_had_no_failure {C : Collaborators} (w : World C) :
  let evs := new_events w (snd (checkAndSign w)) in
  Forall (fun k =>
            In (Called (CUptimeVoteHash k) None) evs
            /\ In (Called (CRewardsHash k) None) evs
            /\ Forall (fun ev => event_epoch ev = Some k ->
                                 thrown_by ev = None) evs)
         (completed_epochs evs).
Proof.
  intros evs. subst evs.
  destruct (checkAndSign_view_any w)
    as (pre & scan & post & s & n & r & Hevs & Hq1 & Hq2 & _ & _ & Hsc & _).
  rewrite Hevs, (completed_frame _ _ _ Hq1 Hq2).
  apply Forall_forall. intros k Hk.
  destruct (scan_run_saved _ _ _ _ k Hsc Hk) as (Hu & Hr & Hf).
  split; [apply in_or_app; right; apply in_or_app; now left|].
  split; [apply in_or_app; right; apply in_or_app; now left|].
  apply Forall_app. split; [now apply quiet_about_no_epoch|].
  apply Forall_app. split; [exact Hf | now apply quiet_about_no_epoch].
Qed.

(** X4.  When a read of [uptimeVoteHash] or of [rewardsHash], or the call of
    [getUptimeVoteHash], throws, the run ends there: the routine still
    returns normally, the failed call is followed by nothing but the line
    "Error in checkAndSign" with the error thrown, and [saveState] is not
    called for the epoch of the failed read. *)
Theorem hash_read_failure_ends_run {C : Collaborators} (w : World C)
        (ev : Event) (err : JsError) :
  let evs := new_events w (snd (checkAndSign w)) in
  In ev evs -> uncaught_error ev = Some err ->
  fst (checkAndSign w) = Normal tt
  /\ (exists before,
        evs = before ++ [ev; ConsoleError (LErrorInCheckAndSign err)])
  /\ (forall e, event_epoch ev = Some e -> ~ In e (completed_epochs evs)).
Proof.
  intros evs Hin Hu. subst evs.
  destruct (checkAndSign_view_any w)
    as (pre & scan & post & s & n & r & Hevs & Hq1 & Hq2 & Hu1 & Hu2 & Hsc
        & _ & Hpost & _).
  rewrite Hevs in *.
  assert (Hscan : In ev scan).
  { apply in_app_or in Hin. destruct Hin as [Hin|Hin].
    - rewrite Forall_forall in Hu1. rewrite (Hu1 _ Hin) in Hu. discriminate.
    - apply in_app_or in Hin. destruct Hin as [Hin|Hin]; [exact Hin|].
      rewrite Forall_forall in Hu2. rewrite (Hu2 _ Hin) in Hu.
      discriminate. }
  destruct Hpost as [->|[-> Hn]]; [destruct Hscan|].
  destruct (scan_run_abort _ _ _ _ Hsc) as [_ Hab].
  destruct (Hab ev err Hscan Hu) as [-> Hlast].
  destruct (last_event_snoc _ _ Hlast) as (before & ->).
  split; [exact Hn|]. split.
  - exists (pre ++ before). simpl. now rewrite <- !app_assoc.
  - intros e He Hc. rewrite (completed_frame _ _ _ Hq1 Hq2) in Hc.
    destruct (scan_run_saved _ _ _ _ e Hsc Hc) as (_ & _ & Hf).
    rewrite Forall_forall in Hf. specialize (Hf ev Hscan He).
    destruct ev as [[] t| |]; simpl in *; congruence.
Qed.

Lemma hash_read_failure_ends_run_witness :
  let w := Flaky.world (Scenario.settled 1) 1 None in
  let evs := new_events w (snd (checkAndSign w)) in
  fst (checkAndSign w) = Normal tt
  /\ (exists before,
        evs = before ++ [Called (CRewardsHash 1) (Some Flaky.timeout_error);
                         ConsoleError
                           (LErrorInCheckAndSign Flaky.timeout_error)])
  /\ (forall e,
        event_epoch (Called (CRewardsHash 1) (Some Flaky.timeout_error))
        = Some e ->
        ~ In e (completed_epochs evs)).
Proof.
  intros w evs.
  assert (H : In (Called (CRewardsHash 1) (Some Flaky.timeout_error)) evs)
    by (vm_compute; intuition).
  exact (hash_read_failure_ends_run w _ Flaky.timeout_error H eq_refl).
Defined.

(** X5.  When the contract shows the uptime vote hash of an epoch (a hash
    that is neither empty nor [ZERO_BYTES32]) whenever it is asked, no run
    submits an uptime vote for that epoch. *)
Theorem signed_uptime_vote_not_resubmitted {C : Collaborators} (e : Z)
        (w : World C) :
  uptime_vote_signed C e ->
  ~ In e (epochs_of KSignUptimeVote (new_events w (snd (checkAndSign w)))).
Proof.
  intros Hs.
  destruct (checkAndSign_view_any w)
    as (pre & scan & post & s & n & r & Hevs & Hq1 & Hq2 & _ & _ & _ & _ & _
        & _ & Hu & _).
  rewrite Hevs, (epochs_of_frame _ _ _ _ Hq1 Hq2). now apply Hu.
Qed.

Lemma signed_uptime_vote_not_resubmitted_witness :
  let w := Scripted.world Scenario.uptime_vote_rejected None in
  ~ In 1 (epochs_of KSignUptimeVote (new_events w (snd (checkAndSign w)))).
Proof.
  intros w. apply (signed_uptime_vote_not_resubmitted 1 w).
  intros x. exists Scripted.SIGNED, x. split; reflexivity.
Defined.

(** X6.  When the contract shows the rewards hash of an epoch whenever it is
    asked, no run fetches the rewards data of that epoch or submits a
    rewards signature for it. *)
Theorem signed_rewards_not_resubmitted {C : Collaborators} (e : Z)
        (w : World C) :
  rewards_signed C e ->
  let evs := new_events w (snd (checkAndSign w)) in
  ~ In e (epochs_of KGetRewardsData evs)
  /\ ~ In e (epochs_of KSignRewards evs).
Proof.
  intros Hs evs. subst evs.
  destruct (checkAndSign_view_any w)
    as (pre & scan & post & s & n & r & Hevs & Hq1 & Hq2 & _ & _ & _ & _ & _
        & _ & _ & Hr).
  rewrite Hevs, !(epochs_of_frame _ _ _ _ Hq1 Hq2). now apply Hr.
Qed.

Lemma signed_rewards_not_resubmitted_witness :
  let w := Scripted.world Scenario.rewards_unavailable None in
  let evs := new_events w (snd (checkAndSign w)) in
  ~ In 1 (epochs_of KGetRewardsData evs)
  /\ ~ In 1 (epochs_of KSignRewards evs).
Proof.
  intros w. apply (signed_rewards_not_resubmitted 1 w).
  intros x. exists Scripted.SIGNED, x. split; reflexivity.
Defined.

(** X7.  Every submission of a run carries what the collaborators returned:
    [signUptimeVote] is given a hash returned by [getUptimeVoteHash], and
    [signRewards] for an epoch is given the rewards hash and the number of
    weight based claims returned by [getRewardsData] for that same
    epoch. *)
Theorem submissions_carry_fetched_data {C : Collaborators} (w : World C) :
  Forall (payload_fetched C) (new_events w (snd (checkAndSign w))).
Proof.
  destruct (checkAndSign_view_any w)
    as (pre & scan & post & s & n & r & Hevs & Hq1 & Hq2 & _ & _ & _ & _ & _
        & Hp & _).
  rewrite Hevs. apply Forall_app. split; [now apply payload_quiet|].
  apply Forall_app. split; [exact Hp | now apply payload_quiet].
Qed.

Lemma saved_of_all (l : list Z) :
  List.map fst (List.filter snd (List.map (fun k : Z => (k, true)) l)) = l.
Proof. induction l as [|k l IH]; [reflexivity|]. simpl. now rewrite IH. Qed.

(** X8.  When no collaborator throws and the disk accepts every access, a
    run that loads a checkpoint below the current epoch saves, one after
    the other, every epoch from [max (last + 1) (current - 4)] to the
    current one, and leaves the current epoch in the checkpoint file. *)
Theorem run_without_failure_reaches_current {C : Collaborators}
        (w w0 : World C) (current last : Z) :
  never_fails C ->
  readInputs w = (Normal (current, last), w0) ->
  last < current ->
  let start := startEpoch_of last current in
  saved_epochs (new_events w (snd (checkAndSign w))) =
    epochs_from start (Z.to_nat (current - start + 1))
  /\ file (snd (checkAndSign w)) = Some (checkpoint_text current)
  /\ persisted (file (snd (checkAndSign w))) = Normal current.
Proof.
  intros Hnf Hin Hlt start.
  pose proof (checkAndSign_view w w0 current last Hin) as H.
  cbv zeta in H. fold start in H.
  destruct H as (pre & scan & r & Hevs & Hq & _ & Hfile & Hw).
  specialize (Hw Hnf).
  assert (Hfile' : file (snd (checkAndSign w)) = Some (checkpoint_text current)).
  { rewrite Hfile, Hw.
    destruct (Z.to_nat (current - start + 1)) as [|n] eqn:En;
      [unfold start, startEpoch_of in En; lia|].
    rewrite file_after_all_epochs, last_of_epochs_from. do 2 f_equal.
    unfold start, startEpoch_of in *. lia. }
  split; [|split; [exact Hfile'|]].
  - rewrite Hevs, (saved_frame _ _ _ Hq (closing_quiet r)).
    unfold saved_epochs. rewrite Hw, saves_all_epochs. apply saved_of_all.
  - rewrite Hfile'. apply persisted_checkpoint_text.
Qed.

Lemma run_without_failure_reaches_current_witness :
  let w := Scripted.world Scenario.nothing_signed None in
  saved_epochs (new_events w (snd (checkAndSign w))) =
    epochs_from (startEpoch_of (-1) 0)
      (Z.to_nat (0 - startEpoch_of (-1) 0 + 1))
  /\ file (snd (checkAndSign w)) = Some (checkpoint_text 0)
  /\ persisted (file (snd (checkAndSign w))) = Normal 0.
Proof.
  intros w.
  assert (Hnf : never_fails (Scripted.collaborators Scenario.nothing_signed)).
  { repeat split; intros; try reflexivity; repeat eexists; reflexivity. }
  assert (H : readInputs w = (Normal (0, -1), snd (readInputs w)))
    by (vm_compute; reflexivity).
  apply (run_without_failure_reaches_current w _ 0 (-1) Hnf H). lia.
Defined.



(** X10.  What [saveState] writes, [loadState] reads back: after
    [saveState state] whose write the disk accepts, a [loadState] whose
    read the disk answers returns [state], and the field
    [lastCompletedEpoch] read from it is the epoch saved. *)
Theorem saveState_loadState_round_trip {C : Collaborators}
        (state : SigningState) (w : World C) :
  let w1 := snd (saveState state w) in
  fst (writeFileSync_fault C (JSON_stringify state) (ext w)) = None ->
  fst (readFileSync_fault C (ext w1)) = None ->
  fst (loadState w1) = Normal (state_value state)
  /\ fst (bind loadState get_lastCompletedEpoch w1) =
       Normal (lastCompletedEpoch state).
Proof.
  intros w1 Hw Hr.
  assert (Hfile : file w1 = Some (JSON_stringify state)).
  { unfold w1, saveState, writeFileSync, try_catch.
    destruct (writeFileSync_fault C (JSON_stringify state) (ext w))
      as [[e|] x]; [discriminate | reflexivity]. }
  destruct (loadState_spec w1) as (evs & Hv & _).
  assert (Hl : loaded_value w1 = state_value state).
  { unfold loaded_value. rewrite Hfile, Hr. now rewrite parse_stringify. }
  rewrite Hl in Hv. split; [exact Hv|].
  unfold bind. destruct (loadState w1) as [r w2]. simpl in Hv. subst r.
  simpl. apply field_state_value.
Qed.

Lemma saveState_loadState_round_trip_witness :
  let state := {| lastCompletedEpoch := 41 |} in
  let w1 := snd (saveState state (Scripted.world (Scenario.settled 41) None)) in
  fst (loadState w1) = Normal (state_value state)
  /\ fst (bind loadState get_lastCompletedEpoch w1) =
       Normal (lastCompletedEpoch state).
Proof.
  intros state w1.
  apply (saveState_loadState_round_trip state
           (Scripted.world (Scenario.settled 41) None)); reflexivity.
Defined.


(** X12.  The retry of [runWithRetry] never runs: on a checkpoint file of
    the typed fragment [checkAndSign] returns normally whatever fails
    inside it, so the wrapper invokes it exactly once, logs no failed
    attempt and no "max retries" message, sets no timer, and returns. *)
Theorem runWithRetry_never_retries {C : Collaborators} (w : World C) :
  persisted (file w) <> IllTyped ->
  let evs := new_events w (snd (runWithRetry w)) in
  evs = new_events w (snd (checkAndSign w)) ++ [Called CCheckAndSign None]
  /\ wrapper_events evs = attempt_done
  /\ fst (runWithRetry w) = Normal tt
  /\ file (snd (runWithRetry w)) = file (snd (checkAndSign w)).
Proof.
  intros Hty evs. subst evs.
  destruct (runWithRetry_once w Hty) as (evs & Hl & Hw & ->). simpl.
  rewrite (new_events_app w (snd (checkAndSign w)) evs Hl).
  erewrite new_events_app; [|simpl; reflexivity].
  split; [reflexivity|].
  rewrite wrapper_events_app, Hw. auto.
Qed.

Lemma runWithRetry_never_retries_witness :
  let w := Scripted.world Scenario.rewards_unavailable None in
  let evs := new_events w (snd (runWithRetry w)) in
  evs = new_events w (snd (checkAndSign w)) ++ [Called CCheckAndSign None]
  /\ wrapper_events evs = attempt_done
  /\ fst (runWithRetry w) = Normal tt
  /\ file (snd (runWithRetry w)) = file (snd (checkAndSign w)).
Proof.
  intros w. apply (runWithRetry_never_retries w).
  simpl. discriminate.
Defined.



(** X14.  A checkpoint file that holds the JSON value [null] stops the tool
    for good when the disk answers every read: the read of
    [state.lastCompletedEpoch] throws in every run, so that no run, however
    many follow each other, examines an epoch or writes the file, which
    stays as it is. *)
Theorem null_checkpoint_blocks_every_run {C : Collaborators} (n : nat)
        (w : World C) (err : JsError) :
  (forall x, fst (readFileSync_fault C x) = None) ->
  persisted (file w) = Thrown err ->
  let evs := new_events w (snd (runs n w)) in
  (forall k, epochs_of k evs = [])
  /\ writes evs = []
  /\ file (snd (runs n w)) = file w
  /\ fst (runs n w) = Normal tt.
Proof.
  intros Hok Hnull evs. subst evs.
  destruct (runs_null n err Hok w Hnull) as (evs & Hl & Hq & Hf & Hn).
  rewrite (new_events_app _ _ _ Hl).
  split; [intros k; now apply epochs_of_quiet|].
  split; [now apply writes_quiet|]. auto.
Qed.

Lemma null_checkpoint_blocks_every_run_witness :
  let w := Scripted.world Scenario.nothing_signed (Some (js "null")) in
  let evs := new_events w (snd (runs 3 w)) in
  (forall k, epochs_of k evs = [])
  /\ writes evs = []
  /\ file (snd (runs 3 w)) = file w
  /\ fst (runs 3 w) = Normal tt.
Proof.
  intros w.
  assert (Hok : forall x,
             fst (readFileSync_fault
                    (Scripted.collaborators Scenario.nothing_signed) x)
             = None)
    by (intros x; reflexivity).
  assert (Hnull : persisted (file w) = Thrown TypeError_null)
    by (vm_compute; reflexivity).
  exact (null_checkpoint_blocks_every_run 3 w TypeError_null Hok Hnull).
Defined.

(** X15.  A run goes through the epochs one after the other: in the order
    of the log, the epochs of its calls about an epoch (hash reads, fetch of
    the rewards data, submissions) never decrease, so that every call about
    an epoch comes before every call about a later one. *)
Theorem epochs_processed_in_order {C : Collaborators} (w : World C) :
  StronglySorted Z.le
    (epochs_touched (new_events w (snd (checkAndSign w)))).
Proof.
  destruct (checkAndSign_view_any w)
    as (pre & scan & post & s & n & r & Hevs & Hq1 & Hq2 & _ & _ & Hsc & _).
  rewrite Hevs, !epochs_touched_app, (epochs_touched_quiet _ Hq1),
    (epochs_touched_quiet _ Hq2), app_nil_r.
  apply (scan_run_in_order _ _ _ _ Hsc).
Qed.

(** X16.  A run submits nothing it has not checked first: before every
    call of [signUptimeVote] for an epoch, the same run read the uptime
    vote hash of that epoch and computed the vote hash, and both calls
    returned; before every call of [signRewards] for an epoch, the same run
    read the uptime vote hash and the rewards hash of that epoch and
    fetched its rewards data, and the three calls returned. *)
Theorem submission_follows_its_checks {C : Collaborators} (w : World C)
        (before after : list Event) (ev : Event) :
  new_events w (snd (checkAndSign w)) = before ++ ev :: after ->
  checked_before before ev.
Proof.
  intros Hsplit.
  destruct (checkAndSign_view_any w)
    as (pre & scan & post & s & n & r & Hevs & Hq1 & Hq2 & _ & _ & Hsc & _).
  assert (Hg : guarded [] (pre ++ scan ++ post)).
  { apply guarded_app; [now apply guarded_quiet|].
    apply guarded_app; [now apply (scan_run_guarded _ _ _ _ Hsc)|].
    now apply guarded_quiet. }
  rewrite <- Hevs, Hsplit in Hg.
  apply (guarded_at _ _ _ _ Hg). intros x [[]|Hx]. exact Hx.
Qed.

Lemma submission_follows_its_checks_witness :
  let w := Scripted.world Scenario.nothing_signed None in
  checked_before (firstn 15 (new_events w (snd (checkAndSign w))))
    (Called (CSignRewards 0 (js "0x4e7a") 5) None).
Proof.
  intros w.
  apply (submission_follows_its_checks w _
           (skipn 16 (new_events w (snd (checkAndSign w))))).
  vm_compute. reflexivity.
Defined.

(** X17.  The checkpoint is saved epoch by epoch, not at the end of the
    run: every write of the checkpoint file in a run is the text of the
    checkpoint of an epoch [k], it comes after every call of the run about
    the epochs up to [k], and before every call of the run about a later
    epoch. *)
Theorem checkpoint_saved_before_next_epoch {C : Collaborators}
        (w : World C) (before after : list Event) (data : jsstring)
        (thrown : option JsError) :
  new_events w (snd (checkAndSign w)) =
    before ++ Called (CWriteFileSync data) thrown :: after ->
  exists k,
    data = checkpoint_text k
    /\ Forall (fun e => e <= k) (epochs_touched before)
    /\ Forall (fun e => k < e) (epochs_touched after).
Proof.
  intros Hsplit.
  destruct (checkAndSign_view_any w)
    as (pre & scan & post & s & n & r & Hevs & Hq1 & Hq2 & _ & _ & Hsc & _).
  rewrite Hevs in Hsplit.
  destruct (split_middle _ _ _ _ _ Hsplit)
    as [(b1 & Hpre & _)|(a2 & -> & Hrest)];
    [now destruct (quiet_no_write _ _ _ _ _ Hq1 Hpre)|].
  destruct (split_middle _ _ _ _ _ Hrest)
    as [(b1 & Hscan & ->)|(a3 & _ & Hpost)];
    [|now destruct (quiet_no_write _ _ _ _ _ Hq2 Hpost)].
  destruct (scan_run_write _ _ _ _ Hsc _ _ _ _ Hscan)
    as (k & _ & -> & Ha & Hb).
  exists k. split; [reflexivity|].
  rewrite !epochs_touched_app, (epochs_touched_quiet _ Hq1),
    (epochs_touched_quiet _ Hq2), app_nil_r.
  split; assumption.
Qed.

Lemma checkpoint_saved_before_next_epoch_witness :
  let w := Scripted.world (Scenario.settled 1) None in
  let evs := new_events w (snd (checkAndSign w)) in
  exists k,
    checkpoint_text 0 = checkpoint_text k
    /\ Forall (fun e => e <= k) (epochs_touched (firstn 9 evs))
    /\ Forall (fun e => k < e) (epochs_touched (skipn 10 evs)).
Proof.
  intros w evs.
  apply (checkpoint_saved_before_next_epoch w (firstn 9 evs) (skipn 10 evs)
           (checkpoint_text 0) None).
  vm_compute. reflexivity.
Defined.
